(* ===== verification/_CoqProject ===== *)
-Q . S2P
Prelude.v
Types.v
Codec.v
Bincode.v
Store.v
Rpc.v
Scan.v
Parse.v
Sync.v
Machine.v
Panic.v
Runs.v
