(* ===== verification/Prelude.v ===== *)
(** * A verified model of rusty-pivx-parser's block synchronizer

    The program ([src/src/main.rs], one file) copies the PIVX block chain
    from a full node's JSON-RPC interface into a RocksDB key-value store:

    - [fetch_new_blocks] (lines 10-87), the chain walker: asks the node for
      its block count, starts at [get_db_height + 1], resolves that height
      to a hash, then loops [getblock] / [parse_block] along the
      [nextblockhash] links; every 100 heights (and once at the end) it
      writes its [WriteBatch];
    - [parse_block] (lines 89-161), the block enricher: puts the bincode
      bytes of the block under ["blockhash: " ++ hash]; for every
      transaction id, calls [getrawtransaction(id, true)], rebuilds a
      [GetRawTransactionInfo] carrying the requested id, puts its bytes
      (twice) under ["transaction:" ++ id] and reads them back; a failed
      call is logged and skipped;
    - [get_db_height] (lines 163-194), the watermark resolver: scans every
      value of the store, decodes it as a block (else, as a transaction,
      only to log it) and returns the largest height, or [-1];
    - [format_hashes] (lines 6-8), the block key; [main] (196-213) opens
      the store, builds the client from constants and calls
      [fetch_new_blocks] once.

    They interact through the store (parse_block writes what
    get_db_height reads on the next run) and through the node client
    (fetch_new_blocks and parse_block call it).

    ** Files and what they model

    - [Prelude] (this file): Rust's [Result], [i64] with its wrap-around
      ([i64_add]), the state monad [St] with notation in [sync_scope],
      [for_each] (a Rust [for] loop), the [sync] hint databases, shared
      lemmas on folds and permutations, the closure [star] of a step
      relation with the lemmas on deterministic systems, and the
      bytewise order of strings.
    - [Types]: [FullBlock], [GetRawTransactionInfo], the RPC and bincode
      errors, UTF-8 validity of Rust strings, the key formats
      [format_hashes] and [tx_key] (C15).
    - [Codec]: the interface [Codec] (bincode serialize/deserialize of the
      two records) with its laws [CodecLaws]; the synchronizer's theorems
      are proved against it.
    - [Bincode]: bincode 1 (fixed little-endian integers, u64 lengths,
      UTF-8-checked strings, option tags, trailing bytes accepted), the
      instance [bincode] and its round-trip lemmas.
    - [Store]: RocksDB as [gmap string bytes], [WriteBatch] and
      [apply_batch], the iterator's items, the [World] (store + event
      trace) and the effects [db_put], [db_get], [db_write], [eprintln].
    - [Rpc]: the client as a record of the four RPC methods, the calls as
      logged actions, the contract [ServesChain] a client meets when it
      serves a well-formed chain ([chain_wf]), and a reference client
      [chain_client] that meets it.
    - [Scan]: [get_db_height] as [scan_value] / [scan_step] /
      [scan_iter] over RocksDB's iterator [db_iterator], which yields
      the entries in bytewise key order ([key_le]) (C2, C9, C10); an
      iterator error among the transaction records costs no block
      (C24).
    - [Parse]: [parse_transaction], [parse_block], their closed forms
      [parse_block_db] / [parse_block_events] (C5, C6, C11), and the
      reference [parse_transaction_once] with one [db.put], which leaves
      the same store (C26).
    - [Sync]: [fetch_loop], [fetch_new_blocks], the abstract chain walk
      [walk] that the loop refines ([fetch_loop_refines_walk]), and the
      end-to-end theorems (C1, C3, C4, C7, C8, C12-C14).
    - [Machine]: the same code cut at the statements between which the
      process can be killed: program points [Pc], states [Mach] (point
      and world) and one rule of [step] per branch of lines 13-87 and of
      the [for] of [parse_block] (line 99).  The machine is
      deterministic and the functional run is its only complete
      execution; on a served chain every execution is finite (C18); the
      invariant [crash_inv], proved by rule induction, gives the stores
      a crash can leave (C19); a node that serves a cycle makes the loop
      run forever (C20); a restart after a crash anywhere leaves the
      store of the uninterrupted run except the cut-off transactions of
      one block (C25).
    - [Panic]: the [.unwrap()] of every RocksDB call (lines 68, 86, 97,
      135, 144, 147): [fstep] adds to [step] one panic rule per call
      site.  With failing store calls a run ends in the functional result
      or in a panic whose store a crash could leave (C21), and a failing
      final [db.write] loses nothing since the batch is empty (C22).
    - [Runs]: [main] as [fetch_new_blocks] on the client built from the
      constants of lines 200-211, the store's typing invariant (C16), and
      successive runs of the binary against growing nodes, along which
      the watermark never decreases (C17) and a transaction at or below
      the watermark is never fetched again (C23).

    ** What the theorems show

    Correctness of a run against a node serving a well-formed chain: the
    run stores exactly the blocks from the watermark on, in order, with
    their transactions (C1, C3, C5), leaves other keys alone (C6), leaves
    no gaps (C4), and a second run is a no-op of two RPC calls (C8).
    The watermark is the maximum decodable block height, independent of
    iteration order (C2, C9).  Error paths: early aborts change nothing
    (C12), a failing transaction is skipped without affecting the rest
    (C5), an iterator error truncates the scan (C10) and, among the
    transaction records, costs no block (C24).  Bounds: the start height
    wraps at [i64::MAX] (C13).  Encoding: the two key formats are
    disjoint (C15).  Findings: the write batch is always empty, so
    [db.write] never writes anything (C7); any stored value that decodes
    as a block, a transaction record among them, raises the watermark
    above blocks never fetched (C14); the second [db.put] of a
    transaction is redundant (C26).  Typing and runs: the store only
    ever holds block records under block keys and transaction records
    under transaction keys (C16); across runs the watermark is monotone
    (C17), and nothing below it is fetched again (C23), so a failed
    [getrawtransaction] is not retried.  Crashes, store failures and
    termination: C18-C22 and C25.

    ** Modelling choices, bounds and fuel

    Every effect is an event appended to the trace of the [World] (RPC
    calls, puts, gets, batch writes, [eprintln!] lines), so ordering and
    call counts are statements about the trace.  [.unwrap()] on RocksDB
    calls is modelled as success in the functional model and as a panic
    (the process aborts) in [Panic]; bincode's serialize cannot fail on
    these records.  The node is a pure function of its
    arguments during a run.  The walk is bounded by [fuel]: fuel equal to
    the length of the chain is enough to reach the tip from any start
    height (C1), so the bound never cuts a run short.  Heights are [i64]
    in the two's complement of a release build; [%] is [Z.rem].  The
    record fields come from the external [rusty_piv] crate: the field
    types (numbers as [i64], lists of strings) are a modelling choice.

    The machine of [Machine] has no fuel: its termination on a served
    chain (C18) is proved from determinism and the complete execution
    the functional model gives with fuel [length bs]; a crash inside
    [parse_transaction] is not a separate point, because its two puts
    write the same value, so the store is the one before or after it.

    ** Not modelled

    - Timing and console output ([Instant::now], [elapsed], [println!]):
      they change no state and their values (durations) are not
      determined by the program; the diagnostics on standard error are
      modelled as events.
    - Opening the store in [main]: its result is the initial [World].
    - The RPC transport and RocksDB internals: external crates that the
      code only calls; they are modelled at the interface the code uses
      (four pure RPC methods, a map with put, get, atomic write and an
      ordered iterator).  A node whose answers change between two runs
      is a different client per run ([Runs.run_all]).  Within one run
      the code asks each question once (one [getblockcount], one
      [getblockhash], one [getblock] per hash of a well-formed chain, one
      [getrawtransaction] per id), so a pure client covers any node
      that answers each question consistently; a node that rewinds its
      chain during a run is outside the spec (section 1, non-goals).
    - bincode and the [rusty_piv] records: external crates; bincode 1 is
      modelled from its format, and the field types of the records are a
      modelling choice, since the sources do not fix them.
*)

From stdpp Require Export base list gmap strings sorting.
From Stdlib Require Export ZArith Lia.

Declare Scope sync_scope.
Delimit Scope sync_scope with sync.
Open Scope Z_scope.

(** ** Rust's [Result] *)

Inductive result (A E : Type) : Type :=
| Ok (a : A)
| Err (e : E).
Arguments Ok {A E} a.
Arguments Err {A E} e.

Definition is_ok {A E} (r : result A E) : bool :=
  match r with Ok _ => true | Err _ => false end.

(** ** [i64] arithmetic *)

Definition i64_min : Z := - 2 ^ 63.
Definition i64_max : Z := 2 ^ 63 - 1.

(** Two's complement reduction of an integer to 64 bits. *)
Definition wrap_i64 (z : Z) : Z := (z + 2 ^ 63) mod 2 ^ 64 - 2 ^ 63.

(** [a + b] on [i64] in a release build (overflow wraps around). *)
Definition i64_add (a b : Z) : Z := wrap_i64 (a + b).

Definition in_i64 (z : Z) : Prop := i64_min <= z <= i64_max.

#[export] Instance in_i64_dec z : Decision (in_i64 z).
Proof. unfold in_i64. apply _. Defined.

(** ** A state monad *)

Definition St (S A : Type) : Type := S -> A * S.

Definition ret {S A} (a : A) : St S A := fun s => (a, s).
Definition bind {S A B} (m : St S A) (k : A -> St S B) : St S B :=
  fun s => let '(a, s') := m s in k a s'.

Notation "x <- m ;; k" := (bind m (fun x => k))
  (at level 100, m at next level, right associativity) : sync_scope.
Notation "m ;; k" := (bind m (fun _ => k))
  (at level 100, right associativity) : sync_scope.

Local Open Scope sync_scope.

(** [for x in l { body }]: the body runs on every element, in order. *)
Fixpoint for_each {S A} (l : list A) (body : A -> St S unit) : St S unit :=
  match l with
  | [] => ret tt
  | x :: l' => body x ;; for_each l' body
  end.

(** ** The development's hint database *)

Create HintDb sync discriminated.
Create Rewrite HintDb sync_rw.

(** ** Generic lemmas *)

Lemma bind_ret_l {S A B} (a : A) (k : A -> St S B) s :
  bind (ret a) k s = k a s.
Proof. reflexivity. Qed.

Lemma bind_run {S A B} (m : St S A) (k : A -> St S B) s :
  bind m k s = k (fst (m s)) (snd (m s)).
Proof. unfold bind. by destruct (m s). Qed.

Lemma for_each_app {S A} (l1 l2 : list A) (body : A -> St S unit) s :
  for_each (l1 ++ l2) body s = for_each l2 body (snd (for_each l1 body s)).
Proof.
  revert s. induction l1 as [|x l1 IH]; intros s; [done|].
  simpl. rewrite !bind_run, IH. by destruct (body x s).
Qed.

Lemma for_each_result {S A} (l : list A) (body : A -> St S unit) s :
  fst (for_each l body s) = tt.
Proof.
  revert s. induction l as [|x l IH]; intros s; [done|].
  simpl. rewrite bind_run. apply IH.
Qed.

(** The state after [for_each] is a left fold of the body's effect. *)
Lemma for_each_fold {S A} (l : list A) (body : A -> St S unit) s :
  snd (for_each l body s) = fold_left (fun s x => snd (body x s)) l s.
Proof.
  revert s. induction l as [|x l IH]; intros s; [done|].
  simpl. rewrite bind_run. apply IH.
Qed.

Lemma wrap_i64_small z : in_i64 z -> wrap_i64 z = z.
Proof.
  unfold in_i64, i64_min, i64_max, wrap_i64. intros.
  rewrite Z.mod_small; lia.
Qed.

Lemma wrap_i64_range z : in_i64 (wrap_i64 z).
Proof.
  unfold in_i64, i64_min, i64_max, wrap_i64.
  pose proof (Z.mod_pos_bound (z + 2 ^ 63) (2 ^ 64)). lia.
Qed.

Lemma i64_add_small a b : in_i64 (a + b) -> i64_add a b = a + b.
Proof. apply wrap_i64_small. Qed.

Lemma i64_add_max : i64_add i64_max 1 = i64_min.
Proof. reflexivity. Qed.

#[export] Hint Resolve wrap_i64_range : sync.
#[export] Hint Rewrite @bind_ret_l @for_each_app : sync_rw.

(** The maximum of an accumulator and the values of a list. *)
Lemma fold_max_ge {A} (f : A -> Z) (l : list A) acc :
  acc <= fold_left (fun m x => Z.max m (f x)) l acc.
Proof.
  revert acc. induction l as [|x l IH]; intros acc; simpl; [lia|].
  specialize (IH (Z.max acc (f x))). lia.
Qed.

Lemma fold_max_in {A} (f : A -> Z) (l : list A) acc x :
  x ∈ l -> f x <= fold_left (fun m x => Z.max m (f x)) l acc.
Proof.
  revert acc. induction l as [|y l IH]; intros acc Hx; [set_solver|].
  simpl. apply elem_of_cons in Hx as [->|Hx]; [|by apply IH].
  pose proof (fold_max_ge f l (Z.max acc (f y))). lia.
Qed.

(** The fold returns its accumulator or one of the values. *)
Lemma fold_max_cases {A} (f : A -> Z) (l : list A) acc :
  fold_left (fun m x => Z.max m (f x)) l acc = acc \/
  exists x, x ∈ l /\ fold_left (fun m x => Z.max m (f x)) l acc = f x.
Proof.
  revert acc. induction l as [|y l IH]; intros acc; simpl; [by left|].
  destruct (IH (Z.max acc (f y))) as [->|(x & Hx & ->)].
  - destruct (Z.max_spec acc (f y)) as [[_ ->]|[_ ->]]; [|by left].
    right. exists y. split; [set_solver|done].
  - right. exists x. split; [set_solver|done].
Qed.

Ltac invc H := inversion H; clear H; subst.

(** A left fold whose steps commute does not depend on the order of the
    list. *)
Lemma fold_left_perm {A B} (f : A -> B -> A) (l1 l2 : list B) a :
  (forall a x y, f (f a x) y = f (f a y) x) ->
  l1 ≡ₚ l2 -> fold_left f l1 a = fold_left f l2 a.
Proof.
  intros Hc Hp. revert a. induction Hp; intros a; simpl; auto.
  - by rewrite Hc.
  - by rewrite IHHp1, IHHp2.
Qed.

(** ** Sequences of transitions *)

Section Star.
Context {A : Type} (R : A -> A -> Prop).

Inductive star : A -> A -> Prop :=
| star_refl a : star a a
| star_step a b c : R a b -> star b c -> star a c.

Lemma star_one a b : R a b -> star a b.
Proof. eauto using star. Qed.

Lemma star_trans a b c : star a b -> star b c -> star a c.
Proof. induction 1; eauto using star. Qed.

Definition irred (a : A) : Prop := forall b, ~ R a b.

Definition deterministic : Prop := forall a b c, R a b -> R a c -> b = c.

(** In a deterministic system, two runs from the same state are
    prefixes of one another. *)
Lemma star_star_inv :
  deterministic -> forall a b, star a b -> forall c, star a c -> star b c \/ star c b.
Proof.
  intros Hd a b Hab. induction Hab as [a|a a' b Ha Hab IH]; intros c Hac; [by left|].
  inversion Hac as [|? a'' ? Ha' Hc]; subst; [right; eauto using star|].
  rewrite (Hd _ _ _ Ha Ha') in IH. by apply IH.
Qed.

Lemma star_irred_unique :
  deterministic -> forall a b c, star a b -> irred b -> star a c -> irred c -> b = c.
Proof.
  intros Hd a b c Hb Ib Hc Ic.
  destruct (star_star_inv Hd _ _ Hb _ Hc) as [H|H]; inversion H; subst; try done.
  - by destruct (Ib _ H0).
  - by destruct (Ic _ H0).
Qed.

(** From a state that reaches an irreducible state, a deterministic
    system has no infinite run. *)
Lemma star_irred_acc :
  deterministic -> forall a b, star a b -> irred b -> Acc (fun y x => R x y) a.
Proof.
  intros Hd a b Hab Ib. induction Hab as [a|a a' b Ha Hab IH].
  - constructor. intros y Hy. by destruct (Ib y).
  - constructor. intros y Hy. rewrite <- (Hd _ _ _ Ha Hy). by apply IH.
Qed.
End Star.

#[export] Hint Constructors star : sync.

(** ** Strings in bytewise order, sorted lists *)

Lemma ascii_compare_trans a b c :
  Ascii.compare a b <> Gt -> Ascii.compare b c <> Gt -> Ascii.compare a c <> Gt.
Proof.
  unfold Ascii.compare. rewrite !N.compare_le_iff. lia.
Qed.

Lemma ascii_compare_lt_trans a b c :
  Ascii.compare a b = Lt -> Ascii.compare b c <> Gt -> Ascii.compare a c = Lt.
Proof.
  unfold Ascii.compare. rewrite !N.compare_lt_iff, N.compare_le_iff. lia.
Qed.

Lemma string_compare_trans s1 s2 s3 :
  String.compare s1 s2 <> Gt -> String.compare s2 s3 <> Gt -> String.compare s1 s3 <> Gt.
Proof.
  revert s2 s3. induction s1 as [|a s1 IH]; intros [|b s2] [|c s3]; simpl; try congruence.
  destruct (Ascii.compare a b) eqn:Eab, (Ascii.compare b c) eqn:Ebc; try congruence;
    intros H1 H2.
  - apply Ascii.compare_eq_iff in Eab, Ebc. subst. unfold Ascii.compare at 1. rewrite N.compare_refl. eauto.
  - apply Ascii.compare_eq_iff in Eab. subst. by rewrite Ebc.
  - apply Ascii.compare_eq_iff in Ebc. subst. by rewrite Eab.
  - by rewrite (ascii_compare_lt_trans a b c Eab ltac:(congruence)).
Qed.

Lemma StronglySorted_lookup {A} (R : relation A) l i j x y :
  StronglySorted R l -> (i < j)%nat -> l !! i = Some x -> l !! j = Some y -> R x y.
Proof.
  intros Hs. revert i j. induction Hs as [|z l Hs IH Hf]; intros i j Hij Hi Hj; [done|].
  destruct i as [|i], j as [|j]; simpl in *; [lia| |lia|].
  - simplify_eq. rewrite Forall_forall in Hf. apply Hf. by eapply list_elem_of_lookup_2.
  - apply (IH i j); [lia|done|done].
Qed.
