(* ===== verification/Types.v ===== *)
(** * Types: the data the synchronizer moves around

    The records of the [rusty_piv] crate that [src/src/main.rs] stores
    ([FullBlock], [GetRawTransactionInfo]), the errors of the RPC client
    and of bincode, the two key formats of the store, and the validity of
    a Rust [String] (its bytes are UTF-8).  The two records are defined in
    the external crate; their fields are those the code touches (spec §3:
    hash, height, transaction ids, successor hash for a block; the twenty
    fields copied in [parse_block], lines 106-127, for a transaction). *)

From S2P Require Import Prelude.
From Stdlib Require Import Ascii String.
From Stdlib Require Strings.Byte.

Abbreviation byte := Byte.byte.
Abbreviation bytes := (list Byte.byte).

#[export] Instance byte_eq_dec : EqDecision byte := Byte.byte_eq_dec.

(** ** Rust strings *)

(** The UTF-8 bytes of a string: a Rocq [string] holds one byte per
    character. *)
Definition string_bytes (s : string) : bytes :=
  map Ascii.byte_of_ascii (list_ascii_of_string s).

Definition string_of_bytes (l : bytes) : string :=
  string_of_list_ascii (map Ascii.ascii_of_byte l).

Definition cont_byte (c : byte) : bool :=
  let n := Byte.to_N c in (0x80 <=? n)%N && (n <=? 0xBF)%N.

(** The range allowed for the second byte of a multi-byte sequence
    (RFC 3629, the table of [core::str::from_utf8]). *)
Definition second_byte_ok (lead : N) (c : byte) : bool :=
  let n := Byte.to_N c in
  match lead with
  | 0xE0%N => (0xA0 <=? n)%N && (n <=? 0xBF)%N
  | 0xED%N => (0x80 <=? n)%N && (n <=? 0x9F)%N
  | 0xF0%N => (0x90 <=? n)%N && (n <=? 0xBF)%N
  | 0xF4%N => (0x80 <=? n)%N && (n <=? 0x8F)%N
  | _ => cont_byte c
  end.

Fixpoint utf8_valid (l : bytes) : bool :=
  match l with
  | [] => true
  | b :: r =>
      let n := Byte.to_N b in
      if (n <? 0x80)%N then utf8_valid r
      else if (0xC2 <=? n)%N && (n <=? 0xDF)%N then
        match r with c :: r' => cont_byte c && utf8_valid r' | [] => false end
      else if (0xE0 <=? n)%N && (n <=? 0xEF)%N then
        match r with
        | c1 :: c2 :: r' => second_byte_ok n c1 && cont_byte c2 && utf8_valid r'
        | _ => false
        end
      else if (0xF0 <=? n)%N && (n <=? 0xF4)%N then
        match r with
        | c1 :: c2 :: c3 :: r' =>
            second_byte_ok n c1 && cont_byte c2 && cont_byte c3 && utf8_valid r'
        | _ => false
        end
      else false
  end.

(** A value of Rust type [String]: UTF-8 bytes, fewer than [2^64]. *)
Definition rust_string (s : string) : bool :=
  utf8_valid (string_bytes s) && bool_decide (Z.of_nat (String.length s) < 2 ^ 64).

Definition rust_i64 (z : Z) : bool := bool_decide (in_i64 z).

Definition rust_option {A} (p : A -> bool) (o : option A) : bool :=
  match o with Some a => p a | None => true end.

Definition rust_vec {A} (p : A -> bool) (l : list A) : bool :=
  forallb p l && bool_decide (Z.of_nat (List.length l) < 2 ^ 64).

(** ** The records *)

(** [rusty_piv::FullBlock], the result of [getblock]. *)
Record FullBlock := mkFullBlock {
  hash : string;
  height : Z;
  tx : list string;
  nextblockhash : option string
}.

(** [rusty_piv::GetRawTransactionInfo], the result of
    [getrawtransaction(id, true)] and the record [parse_block] stores. *)
Record GetRawTransactionInfo := mkTxInfo {
  txid : string;
  version : Z;
  type : Z;
  size : Z;
  locktime : Z;
  vin : list string;
  vout : list string;
  hex : string;
  value_balance : option Z;
  value_balance_sat : option Z;
  vshield_spend : option (list string);
  vshield_output : option (list string);
  binding_sig : option string;
  shielded_addresses : option (list string);
  extra_payload_size : option Z;
  extra_payload : option string;
  blockhash : option string;
  confirmations : option Z;
  time : option Z;
  blocktime : option Z
}.

#[export] Instance FullBlock_eq_dec : EqDecision FullBlock.
Proof. solve_decision. Defined.

#[export] Instance GetRawTransactionInfo_eq_dec : EqDecision GetRawTransactionInfo.
Proof. solve_decision. Defined.

(** A block that Rust can hold: valid strings and an [i64] height. *)
Definition valid_block (b : FullBlock) : bool :=
  rust_string (hash b) && rust_i64 (height b) && rust_vec rust_string (tx b)
  && rust_option rust_string (nextblockhash b).

Definition valid_tx (t : GetRawTransactionInfo) : bool :=
  rust_string (txid t) && rust_i64 (version t) && rust_i64 (type t)
  && rust_i64 (size t) && rust_i64 (locktime t)
  && rust_vec rust_string (vin t) && rust_vec rust_string (vout t)
  && rust_string (hex t)
  && rust_option rust_i64 (value_balance t) && rust_option rust_i64 (value_balance_sat t)
  && rust_option (rust_vec rust_string) (vshield_spend t)
  && rust_option (rust_vec rust_string) (vshield_output t)
  && rust_option rust_string (binding_sig t)
  && rust_option (rust_vec rust_string) (shielded_addresses t)
  && rust_option rust_i64 (extra_payload_size t)
  && rust_option rust_string (extra_payload t)
  && rust_option rust_string (blockhash t)
  && rust_option rust_i64 (confirmations t)
  && rust_option rust_i64 (time t) && rust_option rust_i64 (blocktime t).

(** ** Errors *)

(** The failures of a node RPC call (spec §6 and §7). *)
Inductive RpcError :=
| NotFound
| Connectivity.

(** The [bincode::ErrorKind]s a decode of these records can produce. *)
Inductive DecodeError :=
| UnexpectedEof
| InvalidUtf8Encoding
| InvalidTagEncoding (tag : N).

#[export] Instance RpcError_eq_dec : EqDecision RpcError.
Proof. solve_decision. Defined.
#[export] Instance DecodeError_eq_dec : EqDecision DecodeError.
Proof. solve_decision. Defined.

(** ** Keys of the store *)

(** [format_hashes] (lines 6-8): [format!("blockhash: {}", hash)]. *)
Definition format_hashes (hash : string) : string :=
  String.append "blockhash: " hash.

(** [tx_key] in [parse_block] (line 100): [format!("transaction:{}", id)]. *)
Definition tx_key (transaction : string) : string :=
  String.append "transaction:" transaction.

(** ** Lemmas *)

Lemma format_hashes_inj h1 h2 : format_hashes h1 = format_hashes h2 -> h1 = h2.
Proof. unfold format_hashes. apply String.app_inj. Qed.

Lemma tx_key_inj t1 t2 : tx_key t1 = tx_key t2 -> t1 = t2.
Proof. unfold tx_key. apply String.app_inj. Qed.

(** Block keys start with ['b'], transaction keys with ['t']: the two
    kinds of record never share a key (spec §3). *)
Lemma format_hashes_ne_tx_key h t : format_hashes h <> tx_key t.
Proof. discriminate. Qed.

Lemma string_of_bytes_string_bytes s : string_of_bytes (string_bytes s) = s.
Proof.
  unfold string_of_bytes, string_bytes. rewrite map_map.
  rewrite (map_ext _ id) by apply Ascii.ascii_of_byte_of_ascii.
  rewrite map_id. apply string_of_list_ascii_of_string.
Qed.

Lemma length_string_bytes s : List.length (string_bytes s) = String.length s.
Proof.
  unfold string_bytes. rewrite length_map.
  induction s; simpl; congruence.
Qed.

#[export] Hint Resolve format_hashes_ne_tx_key : sync.

(** C15: the store's two key formats never collide: block keys are
    injective in the hash, transaction keys in the id, and no block key
    is a transaction key (spec §3: distinct namespacing prefixes). *)
Theorem store_keys_distinct h1 h2 t1 t2 :
  (format_hashes h1 = format_hashes h2 <-> h1 = h2) /\
  (tx_key t1 = tx_key t2 <-> t1 = t2) /\
  format_hashes h1 <> tx_key t2.
Proof.
  split; [split; [apply format_hashes_inj|by intros ->]|].
  split; [split; [apply tx_key_inj|by intros ->]|].
  apply format_hashes_ne_tx_key.
Qed.
