(* ===== verification/Codec.v ===== *)
(** * Codec: the serialization interface of the store's values

    [parse_block] stores [bincode::serialize(&block)] and
    [bincode::serialize(&transaction_info)] (lines 93 and 132), and
    [get_db_height] reads values back with [bincode::deserialize]
    (lines 168 and 180).  The synchronizer's theorems are proved against
    this interface: a [Codec] gives the four functions and [CodecLaws]
    the round trips they satisfy on values Rust can hold; the [Bincode]
    file implements it. *)

From S2P Require Import Prelude Types.

Class Codec := {
  serialize_block : FullBlock -> bytes;
  deserialize_block : bytes -> result FullBlock DecodeError;
  serialize_tx : GetRawTransactionInfo -> bytes;
  deserialize_tx : bytes -> result GetRawTransactionInfo DecodeError
}.

Class CodecLaws `{Codec} := {
  deserialize_serialize_block b :
    valid_block b = true -> deserialize_block (serialize_block b) = Ok b;
  deserialize_serialize_tx t :
    valid_tx t = true -> deserialize_tx (serialize_tx t) = Ok t
}.

Section Laws.
Context `{CodecLaws}.

Lemma serialize_block_inj b1 b2 :
  valid_block b1 = true -> valid_block b2 = true ->
  serialize_block b1 = serialize_block b2 -> b1 = b2.
Proof.
  intros V1 V2 E.
  apply deserialize_serialize_block in V1, V2. congruence.
Qed.

Lemma serialize_tx_inj t1 t2 :
  valid_tx t1 = true -> valid_tx t2 = true ->
  serialize_tx t1 = serialize_tx t2 -> t1 = t2.
Proof.
  intros V1 V2 E.
  apply deserialize_serialize_tx in V1, V2. congruence.
Qed.
End Laws.

#[export] Hint Resolve deserialize_serialize_block deserialize_serialize_tx : sync.
