(* ===== verification/Bincode.v ===== *)
(** * Bincode: the bincode 1 encoding of the stored records

    [bincode::serialize] / [bincode::deserialize] with bincode 1's
    default configuration: fixed-width little-endian integers, a [u64]
    length before every string and sequence, a [u8] tag [0]/[1] before an
    optional value, struct fields in declaration order, and trailing bytes
    accepted by [deserialize].  A string decodes only if its bytes are
    UTF-8 ([InvalidUtf8Encoding] otherwise), an option tag other than 0
    and 1 is [InvalidTagEncoding], and running out of input is
    [UnexpectedEof].  The crate is external, so this file is modelled
    from that format (spec §6: a fixed binary encoding); it provides the
    [Codec] instance [bincode] and proves its [CodecLaws]. *)

From S2P Require Import Prelude Types Codec.
From Stdlib Require Strings.Byte.

(** ** A byte reader *)

Definition Dec (A : Type) : Type := bytes -> result (A * bytes) DecodeError.

Definition dret {A} (a : A) : Dec A := fun l => Ok (a, l).
Definition dfail {A} (e : DecodeError) : Dec A := fun _ => Err e.
Definition dbind {A B} (d : Dec A) (k : A -> Dec B) : Dec B :=
  fun l => match d l with Ok (a, l') => k a l' | Err e => Err e end.

Declare Scope bincode_scope.
Delimit Scope bincode_scope with bincode.
Notation "x <-? d ;; k" := (dbind d (fun x => k))
  (at level 100, d at next level, right associativity) : bincode_scope.
Local Open Scope bincode_scope.

(** Reading [n] raw bytes. *)
Definition read_bytes (n : Z) : Dec bytes :=
  fun l => if Z.of_nat (length l) <? n then Err UnexpectedEof
           else Ok (take (Z.to_nat n) l, drop (Z.to_nat n) l).

(** ** Integers *)

Definition byte_of_Z (z : Z) : byte :=
  match Byte.of_N (Z.to_N (z mod 256)) with Some b => b | None => Byte.x00 end.

(** The [k] low bytes of [z], least significant first. *)
Fixpoint le_bytes (k : nat) (z : Z) : bytes :=
  match k with
  | O => []
  | S k' => byte_of_Z z :: le_bytes k' (z / 256)
  end.

Fixpoint of_le (l : bytes) : Z :=
  match l with
  | [] => 0
  | b :: l' => Z.of_N (Byte.to_N b) + 256 * of_le l'
  end.

Definition enc_u8 (z : Z) : bytes := le_bytes 1 z.
Definition enc_u64 (z : Z) : bytes := le_bytes 8 z.
Definition enc_i64 (z : Z) : bytes := le_bytes 8 z.

Definition dec_u8 : Dec Z := n <-? read_bytes 1 ;; dret (of_le n).
Definition dec_u64 : Dec Z := n <-? read_bytes 8 ;; dret (of_le n).
Definition dec_i64 : Dec Z :=
  n <-? read_bytes 8 ;;
  let u := of_le n in dret (if u <? 2 ^ 63 then u else u - 2 ^ 64).

(** ** Strings, options and sequences *)

Definition enc_string (s : string) : bytes :=
  enc_u64 (Z.of_nat (String.length s)) ++ string_bytes s.

Definition dec_string : Dec string :=
  n <-? dec_u64 ;;
  bs <-? read_bytes n ;;
  if utf8_valid bs then dret (string_of_bytes bs) else dfail InvalidUtf8Encoding.

Definition enc_option {A} (e : A -> bytes) (o : option A) : bytes :=
  match o with None => enc_u8 0 | Some a => enc_u8 1 ++ e a end.

Definition dec_option {A} (d : Dec A) : Dec (option A) :=
  t <-? dec_u8 ;;
  if t =? 0 then dret None
  else if t =? 1 then a <-? d ;; dret (Some a)
  else dfail (InvalidTagEncoding (Z.to_N t)).

Definition enc_vec {A} (e : A -> bytes) (l : list A) : bytes :=
  enc_u64 (Z.of_nat (length l)) ++ concat (map e l).

(** [n] elements in a row.  Every element takes at least one byte, so
    the length of the input bounds the recursion: out of fuel, the input
    is exhausted. *)
Fixpoint dec_seq {A} (fuel : nat) (n : Z) (d : Dec A) : Dec (list A) :=
  fun l =>
    match fuel with
    | O => Err UnexpectedEof
    | S f =>
        if n <=? 0 then Ok ([], l)
        else match d l with
             | Err e => Err e
             | Ok (x, l') =>
                 match dec_seq f (n - 1) d l' with
                 | Err e => Err e
                 | Ok (xs, l'') => Ok (x :: xs, l'')
                 end
             end
    end.

Definition dec_vec {A} (d : Dec A) : Dec (list A) :=
  n <-? dec_u64 ;; fun l => dec_seq (S (length l)) n d l.

(** ** Lemmas on the reader *)

Lemma dbind_ok {A B} (d : Dec A) (k : A -> Dec B) l a l' :
  d l = Ok (a, l') -> dbind d k l = k a l'.
Proof. unfold dbind. by intros ->. Qed.

Lemma read_bytes_app (l r : bytes) :
  read_bytes (Z.of_nat (length l)) (l ++ r) = Ok (l, r).
Proof.
  unfold read_bytes. rewrite length_app, Nat2Z.id.
  destruct (Z.ltb_spec (Z.of_nat (length l + length r)) (Z.of_nat (length l))); [lia|].
  by rewrite take_app_length, drop_app_length.
Qed.

Lemma length_le_bytes k z : length (le_bytes k z) = k.
Proof. revert z. induction k; intros; simpl; auto. Qed.

Lemma byte_of_Z_to_N z : Z.of_N (Byte.to_N (byte_of_Z z)) = z mod 256.
Proof.
  unfold byte_of_Z. pose proof (Z.mod_pos_bound z 256 ltac:(lia)).
  pose proof (Byte.to_of_N_option_map (Z.to_N (z mod 256))) as Hm.
  destruct (Byte.of_N _) as [b|] eqn:E; simpl in Hm.
  - destruct (N.leb_spec (Z.to_N (z mod 256)) 255); [|lia].
    injection Hm as ->. lia.
  - destruct (N.leb_spec (Z.to_N (z mod 256)) 255); [discriminate|lia].
Qed.

Lemma mod_256_mul z m :
  0 < m -> z mod (256 * m) = z mod 256 + 256 * ((z / 256) mod m).
Proof.
  intros Hm. symmetry. apply (Z.mod_unique _ _ ((z / 256) / m)).
  - left. pose proof (Z.mod_pos_bound z 256 ltac:(lia)).
    pose proof (Z.mod_pos_bound (z / 256) m Hm). nia.
  - rewrite (Z.div_mod z 256) at 1 by lia.
    rewrite (Z.div_mod (z / 256) m) at 1 by lia. ring.
Qed.

Lemma of_le_le_bytes k z : of_le (le_bytes k z) = z mod 2 ^ (8 * Z.of_nat k).
Proof.
  revert z. induction k as [|k IH]; intros z; simpl.
  - by rewrite Z.mod_1_r.
  - rewrite IH, byte_of_Z_to_N.
    replace (8 * Z.of_nat (S k)) with (8 + 8 * Z.of_nat k) by lia.
    rewrite Z.pow_add_r by lia.
    rewrite mod_256_mul; [done|]. apply Z.pow_pos_nonneg; lia.
Qed.

Lemma dec_u64_enc z r : 0 <= z < 2 ^ 64 -> dec_u64 (enc_u64 z ++ r) = Ok (z, r).
Proof.
  intros Hz. unfold dec_u64, enc_u64.
  rewrite (dbind_ok _ _ _ (le_bytes 8 z) r).
  - unfold dret. rewrite of_le_le_bytes, Z.mod_small; [done|]. simpl. lia.
  - rewrite <- (length_le_bytes 8 z) at 1. apply read_bytes_app.
Qed.

Lemma dec_u8_enc z r : 0 <= z < 256 -> dec_u8 (enc_u8 z ++ r) = Ok (z, r).
Proof.
  intros Hz. unfold dec_u8, enc_u8.
  rewrite (dbind_ok _ _ _ (le_bytes 1 z) r).
  - unfold dret. rewrite of_le_le_bytes, Z.mod_small; [done|]. simpl. lia.
  - rewrite <- (length_le_bytes 1 z) at 1. apply read_bytes_app.
Qed.

Lemma dec_i64_enc z r : in_i64 z -> dec_i64 (enc_i64 z ++ r) = Ok (z, r).
Proof.
  unfold in_i64, i64_min, i64_max. intros Hz. unfold dec_i64, enc_i64.
  rewrite (dbind_ok _ _ _ (le_bytes 8 z) r).
  - unfold dret. rewrite of_le_le_bytes.
    change (2 ^ (8 * Z.of_nat 8)) with (2 ^ 64).
    destruct (Z.le_gt_cases 0 z).
    + rewrite Z.mod_small by lia.
      destruct (Z.ltb_spec z (2 ^ 63)); [done|lia].
    + rewrite <- (Z.mod_unique z (2 ^ 64) (-1) (z + 2 ^ 64)) by lia.
      destruct (Z.ltb_spec (z + 2 ^ 64) (2 ^ 63)); [lia|].
      do 3 f_equal. lia.
  - rewrite <- (length_le_bytes 8 z) at 1. apply read_bytes_app.
Qed.

(** A decoder [d] reads back what [e] wrote for [x], whatever follows. *)
Definition roundtrip {A} (d : Dec A) (e : A -> bytes) (x : A) : Prop :=
  forall r, d (e x ++ r) = Ok (x, r).

Lemma dbind_rt {A B} (d : Dec A) (e : A -> bytes) (k : A -> Dec B) x r :
  roundtrip d e x -> dbind d k (e x ++ r) = k x r.
Proof. intros H. apply dbind_ok, H. Qed.

Lemma rt_i64 z : rust_i64 z = true -> roundtrip dec_i64 enc_i64 z.
Proof. unfold rust_i64. rewrite bool_decide_eq_true. intros ? r. by apply dec_i64_enc. Qed.

Lemma rt_string s : rust_string s = true -> roundtrip dec_string enc_string s.
Proof.
  unfold rust_string. rewrite andb_true_iff, bool_decide_eq_true. intros [Hu Hl] r.
  unfold dec_string, enc_string. rewrite <- app_assoc.
  rewrite (dbind_ok _ _ _ (Z.of_nat (String.length s)) (string_bytes s ++ r))
    by (apply dec_u64_enc; lia).
  rewrite <- length_string_bytes.
  rewrite (dbind_ok _ _ _ (string_bytes s) r) by apply read_bytes_app.
  rewrite Hu. unfold dret. by rewrite string_of_bytes_string_bytes.
Qed.

Lemma rt_option {A} (d : Dec A) e (P : A -> bool) o :
  (forall a, P a = true -> roundtrip d e a) ->
  rust_option P o = true -> roundtrip (dec_option d) (enc_option e) o.
Proof.
  intros HP Ho r. unfold dec_option, enc_option.
  destruct o as [a|]; simpl in Ho.
  - rewrite <- app_assoc, (dbind_ok _ _ _ 1 (e a ++ r)) by (apply dec_u8_enc; lia).
    simpl. by rewrite (dbind_ok _ _ _ a r) by (by apply HP).
  - by rewrite (dbind_ok _ _ _ 0 r) by (apply dec_u8_enc; lia).
Qed.

Lemma dec_seq_enc {A} (d : Dec A) e (xs : list A) fuel r :
  Forall (roundtrip d e) xs -> (length xs < fuel)%nat ->
  dec_seq fuel (Z.of_nat (length xs)) d (concat (map e xs) ++ r) = Ok (xs, r).
Proof.
  revert fuel. induction xs as [|x xs IH]; intros [|f] Hrt Hf; simpl in *; try lia.
  - done.
  - apply Forall_cons in Hrt as [Hx Hrt].
    destruct (Z.leb_spec (Z.pos (Pos.of_succ_nat (length xs))) 0); [lia|].
    rewrite <- app_assoc, Hx.
    replace (Z.of_nat (S (length xs)) - 1) with (Z.of_nat (length xs)) by lia.
    rewrite IH by (done || lia). done.
Qed.

Lemma length_concat_ge {A} (e : A -> bytes) (xs : list A) :
  (forall x, 1 <= length (e x))%nat -> (length xs <= length (concat (map e xs)))%nat.
Proof.
  intros He. induction xs as [|x xs IH]; simpl; [lia|].
  rewrite length_app. specialize (He x). lia.
Qed.

Lemma rt_vec {A} (d : Dec A) e (P : A -> bool) xs :
  (forall a, P a = true -> roundtrip d e a) ->
  (forall x, 1 <= length (e x))%nat ->
  rust_vec P xs = true -> roundtrip (dec_vec d) (enc_vec e) xs.
Proof.
  unfold rust_vec. rewrite andb_true_iff, bool_decide_eq_true, forallb_forall.
  intros HP He [Hall Hl] r. unfold dec_vec, enc_vec. rewrite <- app_assoc.
  rewrite (dbind_ok _ _ _ (Z.of_nat (length xs)) (concat (map e xs) ++ r))
    by (apply dec_u64_enc; lia).
  apply dec_seq_enc.
  - apply Forall_forall. intros x Hx. apply HP, Hall. by apply list_elem_of_In.
  - pose proof (length_concat_ge e xs He). rewrite length_app. lia.
Qed.

Lemma length_enc_string s : (1 <= length (enc_string s))%nat.
Proof. unfold enc_string, enc_u64. rewrite length_app, length_le_bytes. lia. Qed.

Create HintDb bincode.
#[local] Hint Resolve rt_i64 rt_string length_enc_string : bincode.
#[local] Hint Extern 2 (roundtrip (dec_option _) (enc_option _) _) =>
  eapply rt_option : bincode.
#[local] Hint Extern 2 (roundtrip (dec_vec _) (enc_vec _) _) =>
  eapply rt_vec : bincode.

(** ** The two records, fields in declaration order *)

Definition enc_block (b : FullBlock) : bytes :=
  enc_string (hash b) ++ enc_i64 (height b) ++ enc_vec enc_string (tx b)
  ++ enc_option enc_string (nextblockhash b).

Definition dec_block : Dec FullBlock :=
  h <-? dec_string ;;
  ht <-? dec_i64 ;;
  t <-? dec_vec dec_string ;;
  n <-? dec_option dec_string ;;
  dret (mkFullBlock h ht t n).

Definition enc_txinfo (t : GetRawTransactionInfo) : bytes :=
  enc_string (txid t) ++ enc_i64 (version t) ++ enc_i64 (type t)
  ++ enc_i64 (size t) ++ enc_i64 (locktime t)
  ++ enc_vec enc_string (vin t) ++ enc_vec enc_string (vout t)
  ++ enc_string (hex t)
  ++ enc_option enc_i64 (value_balance t) ++ enc_option enc_i64 (value_balance_sat t)
  ++ enc_option (enc_vec enc_string) (vshield_spend t)
  ++ enc_option (enc_vec enc_string) (vshield_output t)
  ++ enc_option enc_string (binding_sig t)
  ++ enc_option (enc_vec enc_string) (shielded_addresses t)
  ++ enc_option enc_i64 (extra_payload_size t)
  ++ enc_option enc_string (extra_payload t)
  ++ enc_option enc_string (blockhash t)
  ++ enc_option enc_i64 (confirmations t)
  ++ enc_option enc_i64 (time t) ++ enc_option enc_i64 (blocktime t).

Definition dec_txinfo : Dec GetRawTransactionInfo :=
  a1 <-? dec_string ;; a2 <-? dec_i64 ;; a3 <-? dec_i64 ;; a4 <-? dec_i64 ;;
  a5 <-? dec_i64 ;; a6 <-? dec_vec dec_string ;; a7 <-? dec_vec dec_string ;;
  a8 <-? dec_string ;; a9 <-? dec_option dec_i64 ;; a10 <-? dec_option dec_i64 ;;
  a11 <-? dec_option (dec_vec dec_string) ;; a12 <-? dec_option (dec_vec dec_string) ;;
  a13 <-? dec_option dec_string ;; a14 <-? dec_option (dec_vec dec_string) ;;
  a15 <-? dec_option dec_i64 ;; a16 <-? dec_option dec_string ;;
  a17 <-? dec_option dec_string ;; a18 <-? dec_option dec_i64 ;;
  a19 <-? dec_option dec_i64 ;; a20 <-? dec_option dec_i64 ;;
  dret (mkTxInfo a1 a2 a3 a4 a5 a6 a7 a8 a9 a10 a11 a12 a13 a14 a15 a16 a17
          a18 a19 a20).

(** [bincode::deserialize] ignores what follows the value. *)
Definition run_dec {A} (d : Dec A) (l : bytes) : result A DecodeError :=
  match d l with Ok (a, _) => Ok a | Err e => Err e end.

#[export] Instance bincode : Codec := {
  serialize_block := enc_block;
  deserialize_block := run_dec dec_block;
  serialize_tx := enc_txinfo;
  deserialize_tx := run_dec dec_txinfo
}.

(** ** Round trips *)

Ltac split_valid H :=
  unfold valid_block, valid_tx in H;
  repeat (rewrite andb_true_iff in H); destruct_and! H.

Ltac dec_fields :=
  repeat (rewrite dbind_rt; [|solve [eauto with bincode]]).

Lemma rt_block b : valid_block b = true -> roundtrip dec_block enc_block b.
Proof.
  intros Hv r. split_valid Hv.
  unfold dec_block, enc_block. rewrite <- !app_assoc. dec_fields. by destruct b.
Qed.

Lemma rt_txinfo t : valid_tx t = true -> roundtrip dec_txinfo enc_txinfo t.
Proof.
  intros Hv r. split_valid Hv.
  unfold dec_txinfo, enc_txinfo. rewrite <- !app_assoc. dec_fields. by destruct t.
Qed.

#[export] Instance bincode_laws : CodecLaws.
Proof.
  split; intros x Hx; simpl; unfold run_dec.
  - rewrite <- (app_nil_r (enc_block x)). by rewrite rt_block.
  - rewrite <- (app_nil_r (enc_txinfo x)). by rewrite rt_txinfo.
Qed.

(** ** Theorems *)

Lemma of_le_range l : 0 <= of_le l < 2 ^ (8 * Z.of_nat (length l)).
Proof.
  induction l as [|b l IH]; simpl; [lia|].
  pose proof (Byte.to_N_bounded b).
  replace (8 * Z.of_nat (S (length l))) with (8 + 8 * Z.of_nat (length l)) by lia.
  rewrite Z.pow_add_r by lia. lia.
Qed.

Lemma read_bytes_length n l bs r :
  read_bytes n l = Ok (bs, r) -> 0 <= n -> Z.of_nat (length bs) = n.
Proof.
  unfold read_bytes. destruct (Z.ltb_spec (Z.of_nat (length l)) n); [done|].
  intros E Hn. injection E as <- _. rewrite length_take. lia.
Qed.

Lemma dec_i64_range l z r : dec_i64 l = Ok (z, r) -> in_i64 z.
Proof.
  unfold dec_i64, dbind, dret. destruct (read_bytes 8 l) as [[bs l']|] eqn:E; [|done].
  intros Hz. injection Hz as <- _. apply read_bytes_length in E; [|lia].
  pose proof (of_le_range bs) as Hr. rewrite E in Hr. simpl in Hr.
  unfold in_i64, i64_min, i64_max.
  destruct (Z.ltb_spec (of_le bs) (2 ^ 63)); lia.
Qed.

(** Every block height bincode decodes is an [i64]. *)
Lemma bincode_block_height_i64 v b :
  run_dec dec_block v = Ok b -> in_i64 (height b).
Proof.
  unfold run_dec, dec_block, dbind at 1.
  destruct (dec_string v) as [[h l1]|]; [|done].
  unfold dbind at 1. destruct (dec_i64 l1) as [[ht l2]|] eqn:E; [|done].
  unfold dbind. destruct (dec_vec dec_string l2) as [[t l3]|]; [|done].
  destruct (dec_option dec_string l3) as [[n l4]|]; [|done].
  intros Hb. injection Hb as <-. simpl. by eapply dec_i64_range.
Qed.

(** Decoding the serialization of a block Rust can hold (UTF-8 strings,
    [i64] height, fewer than [2^64] elements) gives the block back. *)
Theorem bincode_block_roundtrip b :
  valid_block b = true -> run_dec dec_block (enc_block b) = Ok b.
Proof.
  intros Hv. unfold run_dec. rewrite <- (app_nil_r (enc_block b)).
  by rewrite rt_block.
Qed.

(** Decoding the serialization of a valid [GetRawTransactionInfo] gives
    it back, all twenty fields included. *)
Theorem bincode_tx_roundtrip t :
  valid_tx t = true -> run_dec dec_txinfo (enc_txinfo t) = Ok t.
Proof.
  intros Hv. unfold run_dec. rewrite <- (app_nil_r (enc_txinfo t)).
  by rewrite rt_txinfo.
Qed.
