(* ===== verification/Store.v ===== *)
(** * Store: RocksDB and the observable world

    The RocksDB handle [db] of [src/src/main.rs] as a finite map from
    keys to values ([db.put], [db.get]), its [WriteBatch] and
    [db.write(batch)] (an atomic, in-order application of the batch), and
    the iterator of [get_db_height] ([db.iterator(IteratorMode::Start)],
    whose items are [Result]s; the iterator itself is in [Scan]).  The program's effects happen in a
    [World]: the store and the trace of events (RPC calls, store
    operations, lines on standard error), threaded by the state monad
    [M]. *)

From S2P Require Import Prelude Types.

Abbreviation DB := (gmap string bytes).

(** [rocksdb::WriteBatch]: the puts it holds, in order. *)
Definition WriteBatch := list (string * bytes).

(** [db.write(batch)]: every put of the batch, in order. *)
Definition apply_batch (batch : WriteBatch) (d : DB) : DB :=
  fold_left (fun d kv => <[fst kv := snd kv]> d) batch d.

(** An item of the RocksDB iterator. *)
Inductive IterError : Type := IterIoError.
Abbreviation IterItem := (result (string * bytes) IterError).


(** ** Events *)

Inductive RpcCall :=
| CallGetBlockCount
| CallGetBlockHash (height : Z)
| CallGetBlock (hash : string)
| CallGetRawTransaction (txid : string) (verbose : bool).

(** The [eprintln!] lines of [fetch_new_blocks] and [parse_block]. *)
Inductive Diag :=
| DiagBlockCount (e : RpcError)           (* line 16 *)
| DiagBlockHash (height : Z) (e : RpcError) (* line 40 *)
| DiagBlock (hash : string) (e : RpcError)  (* line 54 *)
| DiagRetrieveTx                           (* line 151 *)
| DiagTx (txid : string) (e : RpcError).    (* line 155 *)

Inductive Event :=
| EvRpc (c : RpcCall)
| EvPut (key : string)
| EvGet (key : string)
| EvWrite (entries : nat)
| EvDiag (d : Diag).

#[export] Instance RpcCall_eq_dec : EqDecision RpcCall.
Proof. solve_decision. Defined.
#[export] Instance Diag_eq_dec : EqDecision Diag.
Proof. solve_decision. Defined.
#[export] Instance Event_eq_dec : EqDecision Event.
Proof. solve_decision. Defined.

Record World := mkWorld { db : DB; trace : list Event }.

Abbreviation M := (St World).

Definition emit (e : Event) : M unit :=
  fun w => (tt, mkWorld (db w) (trace w ++ [e])).

(** [db.put(key, value).unwrap()]. *)
Definition db_put (key : string) (value : bytes) : M unit :=
  fun w => (tt, mkWorld (<[key := value]> (db w)) (trace w ++ [EvPut key])).

(** [db.get(key).unwrap()]. *)
Definition db_get (key : string) : M (option bytes) :=
  fun w => (db w !! key, mkWorld (db w) (trace w ++ [EvGet key])).

(** [db.write(batch).unwrap()]. *)
Definition db_write (batch : WriteBatch) : M unit :=
  fun w => (tt, mkWorld (apply_batch batch (db w)) (trace w ++ [EvWrite (length batch)])).

Definition eprintln (d : Diag) : M unit := emit (EvDiag d).

(** The RPC calls of a trace, in order. *)
Definition rpc_calls (t : list Event) : list RpcCall :=
  omap (fun e => match e with EvRpc c => Some c | _ => None end) t.

(** The keys written by [db.put], in order. *)
Definition put_keys (t : list Event) : list string :=
  omap (fun e => match e with EvPut k => Some k | _ => None end) t.

(** ** Lemmas *)

Lemma apply_batch_nil d : apply_batch [] d = d.
Proof. done. Qed.

Lemma apply_batch_app b1 b2 d :
  apply_batch (b1 ++ b2) d = apply_batch b2 (apply_batch b1 d).
Proof. unfold apply_batch. by rewrite fold_left_app. Qed.

Lemma rpc_calls_app t1 t2 : rpc_calls (t1 ++ t2) = rpc_calls t1 ++ rpc_calls t2.
Proof. apply omap_app. Qed.

Lemma put_keys_app t1 t2 : put_keys (t1 ++ t2) = put_keys t1 ++ put_keys t2.
Proof. apply omap_app. Qed.

#[export] Hint Rewrite apply_batch_nil rpc_calls_app put_keys_app : sync_rw.
