(* ===== verification/Rpc.v ===== *)
(** * Rpc: the node client

    [rusty_piv::BitcoinRpcClient] as a record of the four RPC methods the
    program calls ([getblockcount], [getblockhash], [getblock],
    [getrawtransaction]); each call is a monadic action that records
    itself in the trace before returning the node's answer.  The client
    is external: the node's answers are a parameter.  [ServesChain c bs]
    is the contract the synchronizer's theorems assume of a client: it
    serves the canonical chain [bs] (spec §6; the node never rewinds).
    [chain_client] is a reference client built from a chain, and
    [chain_client_serves] shows that it meets the contract. *)

From S2P Require Import Prelude Types Store.

Record Client := mkClient {
  getblockcount : result Z RpcError;
  getblockhash : Z -> result string RpcError;
  getblock : string -> result FullBlock RpcError;
  getrawtransaction : string -> bool -> result GetRawTransactionInfo RpcError
}.

Local Open Scope sync_scope.

Definition call_getblockcount (c : Client) : M (result Z RpcError) :=
  emit (EvRpc CallGetBlockCount) ;; ret (getblockcount c).

Definition call_getblockhash (c : Client) (h : Z) : M (result string RpcError) :=
  emit (EvRpc (CallGetBlockHash h)) ;; ret (getblockhash c h).

Definition call_getblock (c : Client) (hs : string) : M (result FullBlock RpcError) :=
  emit (EvRpc (CallGetBlock hs)) ;; ret (getblock c hs).

Definition call_getrawtransaction (c : Client) (id : string) (verbose : bool)
    : M (result GetRawTransactionInfo RpcError) :=
  emit (EvRpc (CallGetRawTransaction id verbose)) ;; ret (getrawtransaction c id verbose).

(** ** Well-formed chains *)

(** Block [i] has height [i] and links to block [i+1]; the last block has
    no successor; hashes are distinct. *)
Definition chain_wf (bs : list FullBlock) : Prop :=
  NoDup (hash <$> bs) /\
  forall i b, bs !! i = Some b ->
    height b = Z.of_nat i /\ nextblockhash b = hash <$> bs !! S i.

(** The contract of a client serving the chain [bs]. *)
Record ServesChain (c : Client) (bs : list FullBlock) : Prop := {
  serves_hash i b : bs !! i = Some b -> getblockhash c (Z.of_nat i) = Ok (hash b);
  serves_hash_outside h :
    ~ (0 <= h < Z.of_nat (length bs)) -> is_ok (getblockhash c h) = false;
  serves_block b : b ∈ bs -> getblock c (hash b) = Ok b
}.

(** ** A reference client *)

Definition chain_client (bs : list FullBlock)
    (txs : gmap string GetRawTransactionInfo) : Client := {|
  getblockcount := Ok (Z.of_nat (length bs) - 1);
  getblockhash h :=
    if h <? 0 then Err NotFound
    else match bs !! Z.to_nat h with Some b => Ok (hash b) | None => Err NotFound end;
  getblock hs :=
    match list_find (fun b => hash b = hs) bs with
    | Some (_, b) => Ok b
    | None => Err NotFound
    end;
  getrawtransaction id _ :=
    match txs !! id with Some t => Ok t | None => Err NotFound end
|}.

Lemma chain_wf_find bs b :
  NoDup (hash <$> bs) -> b ∈ bs ->
  exists i, list_find (fun b' => hash b' = hash b) bs = Some (i, b).
Proof.
  intros Hnd Hb. apply list_elem_of_lookup in Hb as [i Hi].
  destruct (list_find (fun b' => hash b' = hash b) bs) as [[j b']|] eqn:E.
  - apply list_find_Some in E as (Hj & Hh & _).
    assert (i = j) as <-.
    { eapply NoDup_lookup; [done| |]; rewrite list_lookup_fmap.
      - by rewrite Hi.
      - rewrite Hj. simpl. by rewrite Hh. }
    exists i. congruence.
  - apply list_find_None in E. rewrite Forall_forall in E.
    destruct (E b); [|done]. by eapply list_elem_of_lookup_2.
Qed.

Lemma chain_client_serves bs txs :
  chain_wf bs -> ServesChain (chain_client bs txs) bs.
Proof.
  intros [Hnd Hwf]. split; simpl.
  - intros i b Hi. destruct (Z.ltb_spec (Z.of_nat i) 0); [lia|].
    by rewrite Nat2Z.id, Hi.
  - intros h Hh. destruct (Z.ltb_spec h 0); [done|].
    rewrite lookup_ge_None_2; [done|lia].
  - intros b Hb. by destruct (chain_wf_find bs b Hnd Hb) as [i ->].
Qed.

(** ** Checking well-formedness by evaluation *)

Definition chain_wf_b (bs : list FullBlock) : bool :=
  bool_decide (NoDup (hash <$> bs)) &&
  forallb (fun ib : nat * FullBlock =>
             bool_decide (height ib.2 = Z.of_nat ib.1) &&
             bool_decide (nextblockhash ib.2 = hash <$> bs !! S ib.1))
          (imap pair bs).

Lemma chain_wf_b_sound bs : chain_wf_b bs = true -> chain_wf bs.
Proof.
  unfold chain_wf_b. rewrite andb_true_iff, bool_decide_eq_true, forallb_forall.
  intros [Hnd Hall]. split; [done|]. intros i b Hi.
  specialize (Hall (i, b)). rewrite andb_true_iff, !bool_decide_eq_true in Hall.
  apply Hall, list_elem_of_In, list_elem_of_lookup. exists i.
  by rewrite list_lookup_imap, Hi.
Qed.

(** ** A sample chain: three linked blocks of one transaction each
    (the scenario of spec §8). *)

Definition sample_tx (id : string) (blk : string) : GetRawTransactionInfo := {|
  txid := id; version := 1; type := 0; size := 250; locktime := 0;
  vin := ["coinbase"]; vout := ["out0"]; hex := "0100";
  value_balance := None; value_balance_sat := None;
  vshield_spend := None; vshield_output := None; binding_sig := None;
  shielded_addresses := None; extra_payload_size := None; extra_payload := None;
  blockhash := Some blk; confirmations := Some 3; time := Some 1700000000;
  blocktime := Some 1700000000
|}.

Definition sample_chain : list FullBlock := [
  mkFullBlock "h0" 0 ["t0"] (Some "h1");
  mkFullBlock "h1" 1 ["t1"] (Some "h2");
  mkFullBlock "h2" 2 ["t2"] None
].

Definition sample_txs : gmap string GetRawTransactionInfo :=
  <["t0" := sample_tx "t0" "h0"]> (<["t1" := sample_tx "t1" "h1"]>
    {["t2" := sample_tx "t2" "h2"]}).

Definition sample_client : Client := chain_client sample_chain sample_txs.

Lemma sample_chain_wf : chain_wf sample_chain.
Proof. apply chain_wf_b_sound. vm_compute. reflexivity. Qed.

Lemma sample_client_serves : ServesChain sample_client sample_chain.
Proof. apply chain_client_serves, sample_chain_wf. Qed.
