(* ===== verification/Scan.v ===== *)
(** * Scan: [get_db_height], the watermark resolver

    [get_db_height] (lines 163-194) iterates over the whole store and
    tries to decode each value as a [FullBlock]; a block raises
    [max_height] to its height; an [InvalidUtf8Encoding] failure is
    logged; any other failure leads to a second decode as a
    [GetRawTransactionInfo], whose outcome is only logged.  The loop is a
    [while let Some(Ok(..)) = iter.next()]: the first iterator error ends
    it.  [max_height] starts at [-1].

    The theorems characterize the result as the largest height among the
    values that decode as blocks (or [-1]), show that the order of the
    entries does not matter, that an iterator error silently truncates
    the scan, and that in RocksDB's key order an error among the
    transaction records comes after every block record. *)

From S2P Require Import Prelude Types Codec Bincode Store.

Section Scan.
Context `{Codec}.

(** ** The RocksDB iterator *)

(** RocksDB's default comparator: keys in bytewise lexicographic order,
    a proper prefix first.  [String.compare] compares the character codes
    one by one in the same way. *)
Definition key_le (a b : string * bytes) : Prop := String.compare a.1 b.1 <> Gt.

#[export] Instance key_le_dec a b : Decision (key_le a b).
Proof. unfold key_le. solve_decision. Defined.

(** [db.iterator(IteratorMode::Start)] on a store that reads without
    error: every entry once, from the smallest key on. *)
Definition db_iterator (d : DB) : list IterItem :=
  Ok <$> merge_sort key_le (map_to_list d).

Lemma db_iterator_perm d : merge_sort key_le (map_to_list d) ≡ₚ map_to_list d.
Proof. apply merge_sort_Permutation. Qed.

(** ** The scan *)

(** What one iteration of the loop does with a value. *)
Inductive ScanOutcome :=
| ScanBlock (h : Z)                         (* lines 169-173 *)
| ScanUtf8Error                             (* line 176 *)
| ScanTx (t : GetRawTransactionInfo)        (* line 182 *)
| ScanUndecodable (e : DecodeError).        (* line 185 *)

Definition scan_value (value : bytes) : ScanOutcome :=
  match deserialize_block value with
  | Ok block => ScanBlock (height block)
  | Err InvalidUtf8Encoding => ScanUtf8Error
  | Err _ =>
      match deserialize_tx value with
      | Ok transaction => ScanTx transaction
      | Err err => ScanUndecodable err
      end
  end.

Definition scan_step (max_height : Z) (value : bytes) : Z :=
  match scan_value value with
  | ScanBlock h => if h >? max_height then h else max_height
  | _ => max_height
  end.

(** The [while let Some(Ok((_key, value))) = iter.next()] loop. *)
Fixpoint scan_iter (iter : list IterItem) (max_height : Z) : Z :=
  match iter with
  | Ok (_, value) :: rest => scan_iter rest (scan_step max_height value)
  | _ => max_height
  end.

Definition get_db_height (d : DB) : Z := scan_iter (db_iterator d) (-1).

(** ** Lemmas *)

(** The height a value contributes: its block height, or [-1]. *)
Definition value_height (value : bytes) : Z :=
  match scan_value value with ScanBlock h => h | _ => -1 end.

Lemma scan_step_max m v : -1 <= m -> scan_step m v = Z.max m (value_height v).
Proof.
  unfold scan_step, value_height. intros Hm.
  destruct (scan_value v); try lia.
  destruct (Z.gtb_spec h m); lia.
Qed.

Lemma scan_step_comm m v1 v2 :
  scan_step (scan_step m v1) v2 = scan_step (scan_step m v2) v1.
Proof.
  unfold scan_step.
  destruct (scan_value v1) as [h1| | |], (scan_value v2) as [h2| | |]; try done.
  destruct (Z.gtb_spec h1 m), (Z.gtb_spec h2 m); try destruct (Z.gtb_spec h2 h1);
    try destruct (Z.gtb_spec h1 h2); try destruct (Z.gtb_spec h1 m);
    try destruct (Z.gtb_spec h2 m); lia.
Qed.

Lemma scan_iter_ok (l : list (string * bytes)) m :
  scan_iter (Ok <$> l) m = fold_left (fun m kv => scan_step m (snd kv)) l m.
Proof. revert m. induction l as [|[k v] l IH]; intros m; simpl; auto. Qed.

Lemma scan_iter_ok_max (l : list (string * bytes)) m :
  -1 <= m ->
  scan_iter (Ok <$> l) m = fold_left (fun m kv => Z.max m (value_height (snd kv))) l m.
Proof.
  revert m. induction l as [|[k v] l IH]; intros m Hm; simpl; auto.
  rewrite scan_step_max by done. apply IH. lia.
Qed.

Lemma get_db_height_fold d :
  get_db_height d =
  fold_left (fun m kv => Z.max m (value_height (snd kv))) (map_to_list d) (-1).
Proof.
  unfold get_db_height, db_iterator. rewrite scan_iter_ok_max by lia.
  apply fold_left_perm; [intros; lia|apply db_iterator_perm].
Qed.

Lemma value_height_block v b :
  deserialize_block v = Ok b -> value_height v = height b.
Proof. unfold value_height, scan_value. by intros ->. Qed.

Lemma value_height_cases v :
  value_height v = -1 \/ exists b, deserialize_block v = Ok b /\ value_height v = height b.
Proof.
  unfold value_height, scan_value.
  destruct (deserialize_block v) as [b|[]] eqn:E; eauto.
  all: destruct (deserialize_tx v); auto.
Qed.
End Scan.

#[export] Hint Resolve value_height_block : sync.

(** ** The key order *)

#[export] Instance key_le_trans : Transitive key_le.
Proof. intros [k1 v1] [k2 v2] [k3 v3]. apply string_compare_trans. Qed.

#[export] Instance key_le_total : Total key_le.
Proof.
  intros [k1 v1] [k2 v2]. unfold key_le; simpl.
  rewrite (String.compare_antisym k2 k1). destruct (String.compare k1 k2); simpl; auto; by left.
Qed.

Lemma db_iterator_sorted d : StronglySorted key_le (merge_sort key_le (map_to_list d)).
Proof. apply StronglySorted_merge_sort; apply _. Qed.


Lemma db_iterator_lookup d i kv :
  db_iterator d !! i = Some (Ok kv) <-> merge_sort key_le (map_to_list d) !! i = Some kv.
Proof.
  unfold db_iterator. rewrite list_lookup_fmap.
  destruct (merge_sort key_le (map_to_list d) !! i); simpl; split; congruence.
Qed.

(** Every transaction key sorts after every block key: ['t'] comes after
    ['b']. *)
Lemma tx_key_after_block_key h t : String.compare (tx_key t) (format_hashes h) = Gt.
Proof. reflexivity. Qed.

Section ScanTheorems.
Context `{Codec}.

Lemma scan_iter_ok_perm (l1 l2 : list (string * bytes)) m :
  l1 ≡ₚ l2 -> scan_iter (Ok <$> l1) m = scan_iter (Ok <$> l2) m.
Proof.
  intros Hp. rewrite !scan_iter_ok. apply fold_left_perm; [|done].
  intros. apply scan_step_comm.
Qed.

#[export] Instance scan_iter_ok_proper m :
  Proper ((≡ₚ) ==> eq) (fun l : list (string * bytes) => scan_iter (Ok <$> l) m).
Proof. intros l1 l2 Hp. by apply scan_iter_ok_perm. Qed.

Lemma get_db_height_upper d k v b :
  d !! k = Some v -> deserialize_block v = Ok b -> height b <= get_db_height d.
Proof.
  intros Hk Hb. rewrite get_db_height_fold, <- (value_height_block v b Hb).
  apply (fold_max_in (fun kv => value_height (snd kv)) _ _ (k, v)).
  by apply elem_of_map_to_list.
Qed.

Lemma get_db_height_ge d : -1 <= get_db_height d.
Proof. rewrite get_db_height_fold. apply fold_max_ge. Qed.

Lemma get_db_height_attained d :
  get_db_height d = -1 \/
  exists k v b, d !! k = Some v /\ deserialize_block v = Ok b /\
                height b = get_db_height d.
Proof.
  rewrite get_db_height_fold.
  destruct (fold_max_cases (fun kv => value_height (snd kv)) (map_to_list d) (-1))
    as [->|([k v] & Hin & ->)]; [by left|].
  apply elem_of_map_to_list in Hin. simpl.
  destruct (value_height_cases v) as [->|(b & Hb & ->)]; [by left|].
  right. eauto 6.
Qed.

(** The watermark is [h] when [h] is reached and bounds every block. *)
Lemma get_db_height_eq d h k v b :
  -1 <= h -> d !! k = Some v -> deserialize_block v = Ok b -> height b = h ->
  (forall k v b, d !! k = Some v -> deserialize_block v = Ok b -> height b <= h) ->
  get_db_height d = h.
Proof.
  intros Hh1 Hk Hb Hh Hall. pose proof (get_db_height_upper d k v b Hk Hb).
  destruct (get_db_height_attained d) as [E|(k' & v' & b' & Hk' & Hb' & E)].
  - specialize (Hall k v b Hk Hb). lia.
  - specialize (Hall k' v' b' Hk' Hb'). lia.
Qed.

(** C2: [get_db_height] returns the largest height of a value of the
    store that decodes as a [FullBlock], and [-1] when there is none:
    every such height is at most the result, the result is at least
    [-1], and unless it is [-1] some value of the store decodes to a
    block of exactly that height. *)
Theorem get_db_height_is_max (d : DB) :
  (forall k v b, d !! k = Some v -> deserialize_block v = Ok b ->
                 height b <= get_db_height d) /\
  -1 <= get_db_height d /\
  (get_db_height d = -1 \/
   exists k v b, d !! k = Some v /\ deserialize_block v = Ok b /\
                 height b = get_db_height d).
Proof.
  split; [|split].
  - apply get_db_height_upper.
  - apply get_db_height_ge.
  - apply get_db_height_attained.
Qed.

(** C9: the scan does not depend on the order in which the iterator
    yields the entries: scanning any enumeration of the store's entries
    gives what the scan in RocksDB's key order gives, [get_db_height]. *)
Theorem get_db_height_any_order (d : DB) (l : list (string * bytes)) :
  l ≡ₚ map_to_list d -> scan_iter (Ok <$> l) (-1) = get_db_height d.
Proof.
  intros Hp. unfold get_db_height, db_iterator. apply scan_iter_ok_perm.
  by rewrite db_iterator_perm.
Qed.

(** C10: an iterator error ends the scan: the entries after the first
    [Err] item are never looked at, so their blocks do not count
    towards the watermark. *)
Theorem scan_iter_stops_at_error (l1 l2 : list IterItem) e m :
  scan_iter (l1 ++ Err e :: l2) m = scan_iter l1 m.
Proof.
  revert m. induction l1 as [|[[k v]|e'] l1 IH]; intros m; simpl; auto.
Qed.
(** A scan of entries that ends in an iterator error. *)
Lemma scan_iter_ok_err (l : list (string * bytes)) e rest m :
  scan_iter ((Ok <$> l) ++ Err e :: rest) m = scan_iter (Ok <$> l) m.
Proof. revert m. induction l as [|[k v] l IH]; intros m; simpl; auto. Qed.

(** In key order, a block record comes before the position of any
    transaction record. *)
Lemma block_before_tx (d : DB) j p h v t v' :
  merge_sort key_le (map_to_list d) !! j = Some (format_hashes h, v) ->
  merge_sort key_le (map_to_list d) !! p = Some (tx_key t, v') -> (j < p)%nat.
Proof.
  intros Hj Hp. destruct (decide (j < p)%nat) as [|Hn]; [done|exfalso].
  destruct (decide (j = p)) as [->|Hne]; [rewrite Hj in Hp; simplify_eq; by apply format_hashes_ne_tx_key in Hp|].
  pose proof (StronglySorted_lookup _ _ p j _ _ (db_iterator_sorted d) ltac:(lia) Hp Hj) as Hle.
  unfold key_le in Hle; cbn [fst] in Hle. by rewrite tx_key_after_block_key in Hle.
Qed.

(** C24: an iterator error among the transaction records costs no
    block.  RocksDB yields the entries in key order and every block key
    (["blockhash: "...]) sorts before every transaction key
    (["transaction:"...]), so when the iterator fails at a position that
    holds a transaction record, or after the last entry, the truncated
    scan of [get_db_height] has already seen every block record: each
    one's height is at most what the scan returns. *)
Theorem scan_error_after_blocks (d : DB) p e rest h v :
  d !! format_hashes h = Some v ->
  ((length (db_iterator d) <= p)%nat \/
   exists t v', db_iterator d !! p = Some (Ok (tx_key t, v'))) ->
  value_height v <= scan_iter (take p (db_iterator d) ++ Err e :: rest) (-1).
Proof.
  intros Hv Hp. unfold db_iterator in *. rewrite <- fmap_take, scan_iter_ok_err.
  rewrite scan_iter_ok_max by lia.
  apply (fold_max_in (fun kv => value_height (snd kv)) _ _ (format_hashes h, v)).
  apply elem_of_map_to_list in Hv. rewrite <- (db_iterator_perm d) in Hv.
  apply list_elem_of_lookup in Hv as [j Hj].
  apply list_elem_of_lookup. exists j. rewrite lookup_take_lt; [done|].
  destruct Hp as [Hp|(t & v' & Hp)].
  - apply lookup_lt_Some in Hj. rewrite length_fmap in Hp. lia.
  - apply (block_before_tx d j p h v t v' Hj). by apply (db_iterator_lookup d p (tx_key t, v')).
Qed.
End ScanTheorems.

(** ** Witnesses *)


Definition scan_sample_db : DB :=
  <[format_hashes "00000a" := enc_block (mkFullBlock "00000a" 7 ["t1"] None)]>
  (<[format_hashes "000009" := enc_block (mkFullBlock "000009" 6 ["t0"] (Some "00000a"))]>
   {[tx_key "t1" := [Byte.x01; Byte.x02]]}).

Lemma get_db_height_any_order_witness :
  reverse (map_to_list scan_sample_db) ≡ₚ map_to_list scan_sample_db /\
  scan_iter (Ok <$> reverse (map_to_list scan_sample_db)) (-1) = get_db_height scan_sample_db.
Proof.
  assert (Hp : reverse (map_to_list scan_sample_db) ≡ₚ map_to_list scan_sample_db)
    by (apply (bool_decide_unpack _); vm_compute; reflexivity).
  split; [exact Hp|]. by apply get_db_height_any_order.
Defined.

(** In key order the sample store yields its two block records, then
    the transaction record; the iterator fails at that record. *)
Lemma scan_error_after_blocks_witness :
  scan_sample_db !! format_hashes "00000a" = Some (enc_block (mkFullBlock "00000a" 7 ["t1"] None)) /\
  (exists t v', db_iterator scan_sample_db !! 2%nat = Some (Ok (tx_key t, v'))) /\
  value_height (enc_block (mkFullBlock "00000a" 7 ["t1"] None)) <=
    scan_iter (take 2 (db_iterator scan_sample_db) ++ [Err IterIoError]) (-1).
Proof.
  assert (Hv : scan_sample_db !! format_hashes "00000a" =
                 Some (enc_block (mkFullBlock "00000a" 7 ["t1"] None))) by reflexivity.
  assert (Hp : exists t v', db_iterator scan_sample_db !! 2%nat = Some (Ok (tx_key t, v')))
    by (exists "t1", [Byte.x01; Byte.x02]; vm_compute; reflexivity).
  split; [exact Hv|]. split; [exact Hp|].
  apply (scan_error_after_blocks scan_sample_db 2 IterIoError [] "00000a" _ Hv). by right.
Defined.
