(* ===== verification/Parse.v ===== *)
(** * Parse: [parse_block], the block enricher

    [parse_block] (lines 89-161) serializes the block and puts it under
    [format_hashes block.hash]; then, for every transaction id of the
    block in order, it calls [getrawtransaction(id, true)].  On success it
    rebuilds a [GetRawTransactionInfo] whose [txid] is the requested id
    and whose other fields are copied from the answer, serializes it,
    puts it under ["transaction:" ++ id] twice (lines 135 and 144) and
    reads it back (line 147), logging if the read finds nothing; on
    failure it logs the error and goes on with the next id.

    The theorems give the store and the trace after [parse_block] in
    closed form ([parse_block_db], [parse_block_events]) and derive from
    them what a reader of the store finds; the second put of a record is
    shown redundant against the single-put reference
    [parse_transaction_once]. *)

From S2P Require Import Prelude Types Codec Bincode Store Rpc.

Local Open Scope sync_scope.

Section Parse.
Context `{Codec}.

(** Lines 106-127. *)
Definition assemble_tx (transaction : string) (tx_data : GetRawTransactionInfo)
    : GetRawTransactionInfo := {|
  txid := transaction;
  version := version tx_data;
  type := type tx_data;
  size := size tx_data;
  locktime := locktime tx_data;
  vin := vin tx_data;
  vout := vout tx_data;
  hex := hex tx_data;
  value_balance := value_balance tx_data;
  value_balance_sat := value_balance_sat tx_data;
  vshield_spend := vshield_spend tx_data;
  vshield_output := vshield_output tx_data;
  binding_sig := binding_sig tx_data;
  shielded_addresses := shielded_addresses tx_data;
  extra_payload_size := extra_payload_size tx_data;
  extra_payload := extra_payload tx_data;
  blockhash := blockhash tx_data;
  confirmations := confirmations tx_data;
  time := time tx_data;
  blocktime := blocktime tx_data
|}.

(** The body of the [for transaction in &block.tx] loop (lines 100-157). *)
Definition parse_transaction (client : Client) (transaction : string) : M unit :=
  let key := tx_key transaction in
  r <- call_getrawtransaction client transaction true ;;
  match r with
  | Ok tx_data =>
      let transaction_info := assemble_tx transaction tx_data in
      let tx_bytes := serialize_tx transaction_info in
      db_put key tx_bytes ;;
      let tx_bytes := serialize_tx transaction_info in
      db_put key tx_bytes ;;
      stored_tx_value <- db_get key ;;
      match stored_tx_value with
      | Some _ => ret tt
      | None => eprintln DiagRetrieveTx
      end
  | Err err => eprintln (DiagTx transaction err)
  end.

(** A reference for the loop body with a single [db.put] of the record:
    the serialization and put of lines 137-144 repeat those of lines
    131-135 with the same key and the same bytes. *)
Definition parse_transaction_once (client : Client) (transaction : string) : M unit :=
  let key := tx_key transaction in
  r <- call_getrawtransaction client transaction true ;;
  match r with
  | Ok tx_data =>
      db_put key (serialize_tx (assemble_tx transaction tx_data)) ;;
      stored_tx_value <- db_get key ;;
      match stored_tx_value with
      | Some _ => ret tt
      | None => eprintln DiagRetrieveTx
      end
  | Err err => eprintln (DiagTx transaction err)
  end.

Definition parse_block (client : Client) (block : FullBlock) : M unit :=
  let value := serialize_block block in
  let key := format_hashes (hash block) in
  db_put key value ;;
  for_each (tx block) (parse_transaction client).

(** ** Closed forms *)

Definition tx_db (client : Client) (d : DB) (transaction : string) : DB :=
  match getrawtransaction client transaction true with
  | Ok tx_data => <[tx_key transaction := serialize_tx (assemble_tx transaction tx_data)]> d
  | Err _ => d
  end.

Definition parse_block_db (client : Client) (block : FullBlock) (d : DB) : DB :=
  fold_left (tx_db client) (tx block)
    (<[format_hashes (hash block) := serialize_block block]> d).

Definition tx_events (client : Client) (transaction : string) : list Event :=
  EvRpc (CallGetRawTransaction transaction true) ::
  match getrawtransaction client transaction true with
  | Ok _ => [EvPut (tx_key transaction); EvPut (tx_key transaction); EvGet (tx_key transaction)]
  | Err err => [EvDiag (DiagTx transaction err)]
  end.

Definition parse_block_events (client : Client) (block : FullBlock) : list Event :=
  EvPut (format_hashes (hash block)) :: concat (map (tx_events client) (tx block)).

Lemma parse_transaction_run client transaction w :
  parse_transaction client transaction w =
  (tt, mkWorld (tx_db client (db w) transaction)
               (trace w ++ tx_events client transaction)).
Proof.
  unfold parse_transaction, tx_db, tx_events, call_getrawtransaction,
    eprintln, emit, ret.
  destruct w as [d t]. cbn.
  destruct (getrawtransaction client transaction true) as [tx_data|err]; cbn.
  - rewrite lookup_insert_eq, insert_insert_eq. cbn. by rewrite <- !app_assoc.
  - by rewrite <- !app_assoc.
Qed.

Lemma for_each_parse_transaction client l w :
  for_each l (parse_transaction client) w =
  (tt, mkWorld (fold_left (tx_db client) l (db w))
               (trace w ++ concat (map (tx_events client) l))).
Proof.
  revert w. induction l as [|x l IH]; intros [d t]; simpl.
  - by rewrite app_nil_r.
  - rewrite bind_run, parse_transaction_run, IH. simpl. by rewrite <- app_assoc.
Qed.

Lemma parse_block_run client block w :
  parse_block client block w =
  (tt, mkWorld (parse_block_db client block (db w))
               (trace w ++ parse_block_events client block)).
Proof.
  unfold parse_block. rewrite bind_run. cbn [fst snd db_put].
  rewrite for_each_parse_transaction. simpl. by rewrite <- app_assoc.
Qed.
End Parse.

Section ParseTheorems.
Context `{Codec}.

Lemma fold_tx_db_frame client l d k :
  (forall t, t ∈ l -> k <> tx_key t) ->
  fold_left (tx_db client) l d !! k = d !! k.
Proof.
  revert d. induction l as [|t l IH]; intros d Hk; simpl; [done|].
  rewrite IH by set_solver. unfold tx_db.
  destruct (getrawtransaction client t true); [|done].
  rewrite lookup_insert_ne; [done|]. intros E. apply (Hk t); set_solver.
Qed.

Lemma fold_tx_db_in client l d t tx_data :
  t ∈ l -> getrawtransaction client t true = Ok tx_data ->
  fold_left (tx_db client) l d !! tx_key t =
  Some (serialize_tx (assemble_tx t tx_data)).
Proof.
  revert d. induction l as [|x l IH]; intros d Ht Hr; [set_solver|simpl].
  destruct (decide (t ∈ l)) as [Hin|Hnin]; [by apply IH|].
  assert (x = t) as -> by set_solver.
  rewrite fold_tx_db_frame.
  - unfold tx_db. rewrite Hr. apply lookup_insert_eq.
  - intros t' Ht' E. apply tx_key_inj in E. set_solver.
Qed.

Lemma fold_tx_db_out client l d k :
  fold_left (tx_db client) l d !! k = d !! k \/
  exists t tx_data, t ∈ l /\ k = tx_key t /\
    getrawtransaction client t true = Ok tx_data /\
    fold_left (tx_db client) l d !! k = Some (serialize_tx (assemble_tx t tx_data)).
Proof.
  revert d. induction l as [|x l IH]; intros d; simpl; [by left|].
  destruct (IH (tx_db client d x)) as [->|(t & tx_data & Ht & -> & Hr & E)].
  - unfold tx_db. destruct (getrawtransaction client x true) as [tx_data|] eqn:Hr; [|by left].
    destruct (decide (k = tx_key x)) as [->|Hne].
    + right. exists x, tx_data. rewrite lookup_insert_eq. set_solver.
    + left. by apply lookup_insert_ne.
  - right. exists t, tx_data. set_solver.
Qed.

Lemma parse_block_db_block client b d :
  parse_block_db client b d !! format_hashes (hash b) = Some (serialize_block b).
Proof.
  unfold parse_block_db. rewrite fold_tx_db_frame by auto with sync.
  apply lookup_insert_eq.
Qed.

Lemma parse_block_db_tx client b d t tx_data :
  t ∈ tx b -> getrawtransaction client t true = Ok tx_data ->
  parse_block_db client b d !! tx_key t = Some (serialize_tx (assemble_tx t tx_data)).
Proof. apply fold_tx_db_in. Qed.

Lemma parse_block_db_frame client b d k :
  k <> format_hashes (hash b) -> (forall t, t ∈ tx b -> k <> tx_key t) ->
  parse_block_db client b d !! k = d !! k.
Proof.
  intros Hb Ht. unfold parse_block_db.
  rewrite fold_tx_db_frame by done. by apply lookup_insert_ne.
Qed.

(** Where a value of the store after [parse_block] comes from. *)
Lemma parse_block_db_cases client b d k v :
  parse_block_db client b d !! k = Some v ->
  d !! k = Some v \/
  (k = format_hashes (hash b) /\ v = serialize_block b) \/
  (exists t tx_data, t ∈ tx b /\ k = tx_key t /\
     getrawtransaction client t true = Ok tx_data /\
     v = serialize_tx (assemble_tx t tx_data)).
Proof.
  unfold parse_block_db. intros Hk.
  destruct (fold_tx_db_out client (tx b)
    (<[format_hashes (hash b) := serialize_block b]> d) k)
    as [E|(t & tx_data & Ht & -> & Hr & E)].
  - rewrite E in Hk. destruct (decide (k = format_hashes (hash b))) as [->|Hne].
    + rewrite lookup_insert_eq in Hk. right; left. split; congruence.
    + rewrite lookup_insert_ne in Hk by done. by left.
  - right; right. exists t, tx_data. repeat split; congruence.
Qed.

(** C5: after [parse_block], the store maps the block's key to the
    serialized block and, for every transaction id of the block whose
    [getrawtransaction] call succeeds, the transaction's key to the
    serialized record built from the answer with the requested id: a
    failing transaction does not keep the block or the other
    transactions from being stored (per-transaction isolation). *)
Theorem parse_block_persists client block w :
  let d := db (snd (parse_block client block w)) in
  d !! format_hashes (hash block) = Some (serialize_block block) /\
  (forall t tx_data, t ∈ tx block -> getrawtransaction client t true = Ok tx_data ->
     d !! tx_key t = Some (serialize_tx (assemble_tx t tx_data))).
Proof.
  rewrite parse_block_run. simpl. split.
  - apply parse_block_db_block.
  - intros t tx_data. apply parse_block_db_tx.
Qed.

(** C6: [parse_block] changes no other key: a key that is neither the
    block's key nor the key of one of its transactions keeps its
    value. *)
Theorem parse_block_frame client block w k :
  k <> format_hashes (hash block) -> (forall t, t ∈ tx block -> k <> tx_key t) ->
  db (snd (parse_block client block w)) !! k = db w !! k.
Proof.
  intros Hb Ht. rewrite parse_block_run. by apply parse_block_db_frame.
Qed.

(** C11: [parse_block] calls the node exactly once per transaction id of
    the block, [getrawtransaction(id, true)], in the block's order, and
    its read-back of a just-written transaction never fails: the
    "Failed to retrieve transaction data" line (151) is never printed. *)
Theorem parse_block_calls client block w :
  exists evs, trace (snd (parse_block client block w)) = trace w ++ evs /\
    rpc_calls evs = (fun t => CallGetRawTransaction t true) <$> tx block /\
    EvDiag DiagRetrieveTx ∉ evs.
Proof.
  rewrite parse_block_run. exists (parse_block_events client block).
  split; [done|]. unfold parse_block_events. split.
  - transitivity (rpc_calls (concat (map (tx_events client) (tx block)))); [done|].
    induction (tx block) as [|t l IH]; [done|]. simpl.
    rewrite rpc_calls_app, IH. unfold tx_events.
    by destruct (getrawtransaction client t true).
  - rewrite elem_of_cons, list_elem_of_In, in_concat. intros [|(l & Hl & Hin)]; [done|].
    apply in_map_iff in Hl as (t & <- & _). unfold tx_events in Hin.
    destruct (getrawtransaction client t true); simpl in Hin; naive_solver.
Qed.
(** C26: the second [db.put] is redundant.  The loop body of
    [parse_block] leaves the same store as the reference that puts the
    record once, and the same trace but for one more put of the same
    key; when the node's call fails, both are the same. *)
Theorem parse_transaction_single_put client t w :
  let w1 := snd (parse_transaction client t w) in
  let w2 := snd (parse_transaction_once client t w) in
  db w1 = db w2 /\
  match getrawtransaction client t true with
  | Ok _ => exists pre post, trace w2 = pre ++ post /\ trace w1 = pre ++ EvPut (tx_key t) :: post
  | Err _ => trace w1 = trace w2
  end.
Proof.
  unfold parse_transaction, parse_transaction_once, call_getrawtransaction, db_put, db_get,
    eprintln, emit, bind, ret; simpl.
  destruct (getrawtransaction client t true) as [td|err]; simpl; [|done].
  rewrite insert_insert_eq, !lookup_insert_eq. split; [done|].
  exists (trace w ++ [EvRpc (CallGetRawTransaction t true); EvPut (tx_key t)]), [EvGet (tx_key t)].
  rewrite <- !app_assoc. done.
Qed.

End ParseTheorems.

(** ** Witnesses *)

Definition parse_sample_world : World :=
  mkWorld {[format_hashes "h1" := [Byte.x00]]} [].

Lemma parse_block_frame_witness :
  format_hashes "h1" <> format_hashes (hash (mkFullBlock "h0" 0 ["t0"] (Some "h1"))) /\
  (forall t, t ∈ ["t0"] -> format_hashes "h1" <> tx_key t) /\
  db (snd (parse_block sample_client (mkFullBlock "h0" 0 ["t0"] (Some "h1")) parse_sample_world))
    !! format_hashes "h1" = Some [Byte.x00].
Proof.
  assert (H1 : format_hashes "h1" <> format_hashes (hash (mkFullBlock "h0" 0 ["t0"] (Some "h1"))))
    by (vm_compute; congruence).
  assert (H2 : forall t, t ∈ ["t0"] -> format_hashes "h1" <> tx_key t)
    by (intros t Ht; apply list_elem_of_singleton in Ht as ->; vm_compute; congruence).
  split; [exact H1|]. split; [exact H2|].
  apply (parse_block_frame sample_client _ parse_sample_world _ H1 H2).
Defined.
