(* ===== verification/Sync.v ===== *)
(** * Sync: [fetch_new_blocks], the chain walker

    [fetch_new_blocks] (lines 10-87) calls [getblockcount] (returning on
    failure), computes [current_block_height = get_db_height(&db) + 1],
    creates an empty [WriteBatch], resolves the height with
    [getblockhash] (returning on failure) and loops: [getblock] on the
    current hash (leaving the loop on failure), [parse_block], then, if
    the block has a [nextblockhash], writes the batch when
    [current_block_height % 100 == 0], increments the height and follows
    the link; without a successor it leaves the loop.  After the loop it
    writes the batch.

    [walk] is the abstract specification of the loop: the list of blocks
    reached by following the successor links from a hash, and why the
    walk ends.  [fetch_loop_refines_walk] shows that the loop stores
    exactly the blocks of [walk], in order, whatever the client; for a
    client that serves a well-formed chain, [walk_served] computes the
    walk as the suffix of the chain. *)

From S2P Require Import Prelude Types Codec Bincode Store Rpc Scan Parse.

Local Open Scope sync_scope.

Inductive LoopExit :=
| ExitTip             (* no [nextblockhash]: line 80 *)
| ExitGetBlockFailed  (* [getblock] failed: line 55 *)
| ExitOutOfFuel.      (* the model's bound on iterations *)

Inductive SyncResult :=
| AbortBlockCount     (* line 17 *)
| AbortBlockHash      (* line 41 *)
| Walked (exit : LoopExit).

#[export] Instance LoopExit_eq_dec : EqDecision LoopExit.
Proof. solve_decision. Defined.
#[export] Instance SyncResult_eq_dec : EqDecision SyncResult.
Proof. solve_decision. Defined.

Section Sync.
Context `{Codec}.

(** [get_db_height(&db)]: a read of the store. *)
Definition read_db_height : M Z := fun w => (get_db_height (db w), w).

(** Lines 65-73: the periodic write of the batch. *)
Definition maybe_flush (current_block_height : Z) (batch : WriteBatch) : M WriteBatch :=
  if Z.rem current_block_height 100 =? 0 then db_write batch ;; ret []
  else ret batch.

(** The [loop] of lines 47-84; [fuel] bounds the number of iterations. *)
Fixpoint fetch_loop (client : Client) (fuel : nat) (current_block_height : Z)
    (block_hash : string) (batch : WriteBatch) : M (LoopExit * WriteBatch) :=
  match fuel with
  | O => ret (ExitOutOfFuel, batch)
  | S fuel' =>
      r <- call_getblock client block_hash ;;
      match r with
      | Err err => eprintln (DiagBlock block_hash err) ;; ret (ExitGetBlockFailed, batch)
      | Ok block =>
          parse_block client block ;;
          match nextblockhash block with
          | Some next_block_hash =>
              batch <- maybe_flush current_block_height batch ;;
              fetch_loop client fuel' (i64_add current_block_height 1) next_block_hash batch
          | None => ret (ExitTip, batch)
          end
      end
  end.

Definition fetch_new_blocks (client : Client) (fuel : nat) : M SyncResult :=
  r <- call_getblockcount client ;;
  match r with
  | Err err => eprintln (DiagBlockCount err) ;; ret AbortBlockCount
  | Ok best_block_height =>
      db_height <- read_db_height ;;
      let current_block_height := i64_add db_height 1 in
      let batch : WriteBatch := [] in
      r <- call_getblockhash client current_block_height ;;
      match r with
      | Err err => eprintln (DiagBlockHash current_block_height err) ;; ret AbortBlockHash
      | Ok block_hash =>
          res <- fetch_loop client fuel current_block_height block_hash batch ;;
          db_write (snd res) ;;
          ret (Walked (fst res))
      end
  end.

(** ** The abstract walk *)

Fixpoint walk (client : Client) (fuel : nat) (block_hash : string)
    : list FullBlock * LoopExit :=
  match fuel with
  | O => ([], ExitOutOfFuel)
  | S fuel' =>
      match getblock client block_hash with
      | Err _ => ([], ExitGetBlockFailed)
      | Ok block =>
          match nextblockhash block with
          | Some next => let '(bs, e) := walk client fuel' next in (block :: bs, e)
          | None => ([block], ExitTip)
          end
      end
  end.

(** The store after parsing the blocks of a walk, in order. *)
Definition blocks_db (client : Client) (bs : list FullBlock) (d : DB) : DB :=
  fold_left (fun d b => parse_block_db client b d) bs d.
End Sync.

Section LoopLemmas.
Context `{Codec}.

(** The hashes the walk asks [getblock] for. *)
Fixpoint walk_requests (client : Client) (fuel : nat) (block_hash : string) : list string :=
  match fuel with
  | O => []
  | S fuel' =>
      block_hash ::
      match getblock client block_hash with
      | Ok block =>
          match nextblockhash block with
          | Some next => walk_requests client fuel' next
          | None => []
          end
      | Err _ => []
      end
  end.

Definition getblock_calls (t : list Event) : list string :=
  omap (fun e => match e with EvRpc (CallGetBlock h) => Some h | _ => None end) t.

(** Every [db.write] of the events writes an empty batch. *)
Definition writes_empty (evs : list Event) : Prop :=
  forall n, EvWrite n ∈ evs -> n = 0%nat.

Lemma getblock_calls_app t1 t2 :
  getblock_calls (t1 ++ t2) = getblock_calls t1 ++ getblock_calls t2.
Proof. apply omap_app. Qed.

Lemma writes_empty_app t1 t2 :
  writes_empty t1 -> writes_empty t2 -> writes_empty (t1 ++ t2).
Proof. intros H1 H2 n Hn. apply elem_of_app in Hn as [Hn|Hn]; auto. Qed.

Lemma parse_block_events_quiet client b :
  getblock_calls (parse_block_events client b) = [] /\
  writes_empty (parse_block_events client b).
Proof.
  unfold parse_block_events. split.
  - transitivity (getblock_calls (concat (map (tx_events client) (tx b)))); [done|].
    induction (tx b) as [|t l IH]; [done|]. simpl.
    rewrite getblock_calls_app, IH. unfold tx_events.
    by destruct (getrawtransaction client t true).
  - intros n. rewrite elem_of_cons, list_elem_of_In, in_concat.
    intros [|(l & Hl & Hin)]; [done|].
    apply in_map_iff in Hl as (t & <- & _). unfold tx_events in Hin.
    destruct (getrawtransaction client t true); simpl in Hin; naive_solver.
Qed.

Lemma maybe_flush_empty h w :
  exists evs, maybe_flush h [] w = ([], mkWorld (db w) (trace w ++ evs)) /\
    getblock_calls evs = [] /\ writes_empty evs.
Proof.
  unfold maybe_flush. destruct (Z.rem h 100 =? 0).
  - exists [EvWrite 0]. split; [done|]. split; [done|].
    intros n Hn. apply list_elem_of_singleton in Hn. congruence.
  - exists []. rewrite app_nil_r. split; [by destruct w|]. split; [done|].
    intros n Hn. set_solver.
Qed.

Lemma fetch_loop_refines_walk client fuel h hs w :
  let r := fetch_loop client fuel h hs [] w in
  fst r = (snd (walk client fuel hs), []) /\
  db (snd r) = blocks_db client (fst (walk client fuel hs)) (db w) /\
  exists evs, trace (snd r) = trace w ++ evs /\
    getblock_calls evs = walk_requests client fuel hs /\ writes_empty evs.
Proof.
  revert h hs w. induction fuel as [|fuel IH]; intros h hs w; simpl.
  - split; [done|]. split; [done|]. exists []. rewrite app_nil_r.
    split; [done|]. split; [done|]. intros n Hn. set_solver.
  - rewrite bind_run. simpl. destruct (getblock client hs) as [b|err]; simpl.
    + rewrite bind_run, parse_block_run. simpl.
      destruct (parse_block_events_quiet client b) as [Hq1 Hq2].
      destruct (nextblockhash b) as [nh|].
      * rewrite bind_run.
        destruct (maybe_flush_empty h (mkWorld (parse_block_db client b (db w))
          ((trace w ++ [EvRpc (CallGetBlock hs)]) ++ parse_block_events client b)))
          as (evs1 & -> & Hf1 & Hf2). simpl.
        destruct (IH (i64_add h 1) nh (mkWorld (parse_block_db client b (db w))
          (((trace w ++ [EvRpc (CallGetBlock hs)]) ++ parse_block_events client b) ++ evs1)))
          as (Hr & Hd & evs2 & Ht & Hc & Hw).
        destruct (walk client fuel nh) as [bs e]. cbn [fst snd] in *.
        split; [done|]. split; [done|].
        exists ([EvRpc (CallGetBlock hs)] ++ parse_block_events client b ++ evs1 ++ evs2).
        rewrite Ht, !app_assoc. split; [done|].
        rewrite !getblock_calls_app, Hq1, Hf1, Hc. split; [done|].
        repeat apply writes_empty_app; auto. intros n Hn. set_solver.
      * split; [done|]. split; [done|].
        exists ([EvRpc (CallGetBlock hs)] ++ parse_block_events client b).
        rewrite app_assoc. split; [done|].
        rewrite getblock_calls_app, Hq1. split; [done|].
        apply writes_empty_app; auto. intros n Hn. set_solver.
    + split; [done|]. split; [done|].
      exists [EvRpc (CallGetBlock hs); EvDiag (DiagBlock hs err)].
      rewrite <- app_assoc. split; [done|]. split; [done|].
      intros n Hn. set_solver.
Qed.
End LoopLemmas.

Section Run.
Context `{Codec}.

Lemma fetch_new_blocks_run client fuel w :
  let s := i64_add (get_db_height (db w)) 1 in
  let r := fetch_new_blocks client fuel w in
  exists evs, trace (snd r) = trace w ++ evs /\ writes_empty evs /\
  match getblockcount client with
  | Err _ => fst r = AbortBlockCount /\ db (snd r) = db w /\
             rpc_calls evs = [CallGetBlockCount]
  | Ok _ =>
      match getblockhash client s with
      | Err _ => fst r = AbortBlockHash /\ db (snd r) = db w /\
                 rpc_calls evs = [CallGetBlockCount; CallGetBlockHash s]
      | Ok hs => fst r = Walked (snd (walk client fuel hs)) /\
                 db (snd r) = blocks_db client (fst (walk client fuel hs)) (db w) /\
                 getblock_calls evs = walk_requests client fuel hs
      end
  end.
Proof.
  intros s. unfold fetch_new_blocks. rewrite bind_run. simpl.
  destruct (getblockcount client) as [n|err]; simpl.
  - rewrite bind_run. simpl. rewrite bind_run. simpl. fold s.
    destruct (getblockhash client s) as [hs|err]; simpl.
    + rewrite bind_run.
      destruct (fetch_loop_refines_walk client fuel s hs
        (mkWorld (db w) ((trace w ++ [EvRpc CallGetBlockCount]) ++ [EvRpc (CallGetBlockHash s)])))
        as (Hr & Hd & evs & Ht & Hc & Hw).
      destruct (fetch_loop client fuel s hs [] _) as [[e b] w'] eqn:E.
      simpl in *. injection Hr as -> ->.
      exists ([EvRpc CallGetBlockCount; EvRpc (CallGetBlockHash s)] ++ evs ++ [EvWrite 0]).
      split; [rewrite Ht, <- !app_assoc; reflexivity|].
      split.
      { apply writes_empty_app; [|apply writes_empty_app; [done|]].
        all: intros k Hk; apply list_elem_of_In in Hk; simpl in Hk; naive_solver. }
      split; [done|]. split; [done|].
      rewrite !getblock_calls_app, Hc. simpl. by rewrite app_nil_r.
    + exists [EvRpc CallGetBlockCount; EvRpc (CallGetBlockHash s); EvDiag (DiagBlockHash s err)].
      rewrite <- !app_assoc. split; [done|]. split; [|done].
      intros k Hk; apply list_elem_of_In in Hk; simpl in Hk; naive_solver.
  - exists [EvRpc CallGetBlockCount; EvDiag (DiagBlockCount err)].
    rewrite <- !app_assoc. split; [done|]. split; [|done].
    intros k Hk; apply list_elem_of_In in Hk; simpl in Hk; naive_solver.
Qed.
End Run.

Section BlocksDb.
Context `{Codec}.

Lemma blocks_db_cons client y l d :
  blocks_db client (y :: l) d = blocks_db client l (parse_block_db client y d).
Proof. done. Qed.

Lemma blocks_db_frame_block client l d h :
  h ∉ hash <$> l ->
  blocks_db client l d !! format_hashes h = d !! format_hashes h.
Proof.
  revert d. induction l as [|y l IH]; intros d Hh; [done|].
  rewrite fmap_cons, elem_of_cons in Hh.
  rewrite blocks_db_cons, IH by naive_solver.
  apply parse_block_db_frame; [|auto with sync].
  intros E. apply format_hashes_inj in E. naive_solver.
Qed.

Lemma blocks_db_block client l d y :
  NoDup (hash <$> l) -> y ∈ l ->
  blocks_db client l d !! format_hashes (hash y) = Some (serialize_block y).
Proof.
  revert d. induction l as [|x l IH]; intros d Hnd Hy; [set_solver|].
  rewrite blocks_db_cons.
  rewrite fmap_cons in Hnd. apply NoDup_cons in Hnd as [Hx Hnd].
  apply elem_of_cons in Hy as [->|Hy].
  - rewrite blocks_db_frame_block by done. apply parse_block_db_block.
  - by apply IH.
Qed.

(** Where a value of the store after a walk comes from. *)
Lemma blocks_db_cases client l d k v :
  blocks_db client l d !! k = Some v ->
  d !! k = Some v \/
  (exists y, y ∈ l /\ k = format_hashes (hash y) /\ v = serialize_block y) \/
  (exists y t tx_data, y ∈ l /\ t ∈ tx y /\ k = tx_key t /\
     getrawtransaction client t true = Ok tx_data /\
     v = serialize_tx (assemble_tx t tx_data)).
Proof.
  revert d. induction l as [|x l IH]; intros d Hk; [by left|].
  rewrite blocks_db_cons in Hk.
  destruct (IH _ Hk) as [Hd|[(y & Hy & ? & ?)|(y & t & td & Hy & ?)]].
  - destruct (parse_block_db_cases client x d k v Hd)
      as [?|[[-> ->]|(t & td & Ht & -> & Hr & ->)]]; [by left| |].
    + right; left. exists x. set_solver.
    + right; right. exists x, t, td. split_and!; set_solver.
  - right; left. exists y. set_solver.
  - right; right. exists y, t, td. set_solver.
Qed.
End BlocksDb.

Section Served.
Context `{Codec}.
Context (client : Client) (bs : list FullBlock).
Context (Hserve : ServesChain client bs) (Hwf : chain_wf bs).

Lemma walk_served fuel i b :
  bs !! i = Some b -> (length bs - i <= fuel)%nat ->
  walk client fuel (hash b) = (drop i bs, ExitTip) /\
  walk_requests client fuel (hash b) = hash <$> drop i bs.
Proof.
  revert i b. induction fuel as [|fuel IH]; intros i b Hi Hf.
  { apply lookup_lt_Some in Hi. lia. }
  simpl. rewrite (serves_block _ _ Hserve b) by (by eapply list_elem_of_lookup_2).
  destruct (proj2 Hwf i b Hi) as [_ Hn]. rewrite Hn.
  rewrite (drop_S _ _ _ Hi).
  destruct (bs !! S i) as [b'|] eqn:Hi'; simpl.
  - destruct (IH (S i) b' Hi') as [-> ->]; [apply lookup_lt_Some in Hi'; lia|].
    done.
  - rewrite drop_ge by (by apply lookup_ge_None). done.
Qed.
End Served.

Section ServedRun.
Context `{Codec}.
Context (client : Client) (bs : list FullBlock).
Context (Hserve : ServesChain client bs) (Hwf : chain_wf bs).

(** The start height [fetch_new_blocks] computes. *)
Definition start_height (d : DB) : Z := i64_add (get_db_height d) 1.

Definition in_chain (s : Z) : Prop := 0 <= s < Z.of_nat (length bs).

Lemma fetch_new_blocks_served fuel w n :
  getblockcount client = Ok n -> (length bs <= fuel)%nat ->
  let s := start_height (db w) in
  let r := fetch_new_blocks client fuel w in
  exists evs, trace (snd r) = trace w ++ evs /\ writes_empty evs /\
  if decide (in_chain s) then
    fst r = Walked ExitTip /\
    db (snd r) = blocks_db client (drop (Z.to_nat s) bs) (db w) /\
    getblock_calls evs = hash <$> drop (Z.to_nat s) bs
  else
    fst r = AbortBlockHash /\ db (snd r) = db w /\
    rpc_calls evs = [CallGetBlockCount; CallGetBlockHash s].
Proof.
  intros Hn Hf s r.
  destruct (fetch_new_blocks_run client fuel w) as (evs & Ht & Hw & Hm).
  exists evs. split; [done|]. split; [done|]. rewrite Hn in Hm.
  change (i64_add (get_db_height (db w)) 1) with s in Hm.
  unfold in_chain. case_decide as Hs.
  - destruct (lookup_lt_is_Some_2 bs (Z.to_nat s)) as [b Hb]; [lia|].
    rewrite <- (Z2Nat.id s), (serves_hash _ _ Hserve _ b Hb) in Hm by lia.
    destruct (walk_served client bs Hserve Hwf fuel (Z.to_nat s) b Hb) as [Hw1 Hw2]; [lia|].
    rewrite Hw1, Hw2 in Hm. apply Hm.
  - pose proof (serves_hash_outside _ _ Hserve s Hs) as Ho.
    destruct (getblockhash client s); [done|]. apply Hm.
Qed.

(** A block of the chain below [i] keeps its hash out of the suffix
    from [i]. *)
Lemma hash_not_in_drop i j y :
  bs !! j = Some y -> (j < i)%nat -> hash y ∉ hash <$> drop i bs.
Proof.
  intros Hj Hji. destruct Hwf as [Hnd _].
  rewrite <- (take_drop i bs), fmap_app in Hnd.
  apply NoDup_app in Hnd as (_ & Hdis & _). apply Hdis.
  apply list_elem_of_fmap. exists y. split; [done|].
  apply list_elem_of_lookup. exists j. by rewrite lookup_take_lt.
Qed.

Lemma block_in_drop i j y :
  bs !! j = Some y -> (i <= j)%nat -> y ∈ drop i bs.
Proof.
  intros Hj Hij. apply list_elem_of_lookup. exists (j - i)%nat.
  rewrite lookup_drop. by replace (i + (j - i))%nat with j by lia.
Qed.

Lemma nodup_drop i : NoDup (hash <$> drop i bs).
Proof.
  destruct Hwf as [Hnd _]. rewrite <- (take_drop i bs), fmap_app in Hnd.
  by apply NoDup_app in Hnd as (_ & _ & ?).
Qed.

(** The blocks of the chain below [k] are stored under their keys. *)
Definition chain_stored (k : nat) (d : DB) : Prop :=
  forall i b, bs !! i = Some b -> (i < k)%nat ->
    d !! format_hashes (hash b) = Some (serialize_block b).

Lemma blocks_db_chain_stored i d :
  chain_stored i d -> chain_stored (length bs) (blocks_db client (drop i bs) d).
Proof.
  intros Hst j y Hj _. destruct (decide (j < i)%nat).
  - rewrite blocks_db_frame_block by (by eapply hash_not_in_drop). by apply (Hst j).
  - apply blocks_db_block; [apply nodup_drop|]. apply (block_in_drop i j); [done|lia].
Qed.
End ServedRun.

Section SyncTheorems.
Context `{Codec}.
Context (client : Client) (bs : list FullBlock).
Context (Hserve : ServesChain client bs) (Hwf : chain_wf bs).

(** C1: against a node serving a well-formed chain [bs] (enough fuel:
    the length of the chain), [fetch_new_blocks] starts at
    [s = get_db_height + 1]: when [s] is a height of the chain it walks
    to the tip and leaves the store as [parse_block] applied to the
    blocks of heights [s], [s+1], ..., in order; otherwise it stops at
    [getblockhash] and leaves the store unchanged. *)
Theorem fetch_new_blocks_syncs fuel w n :
  getblockcount client = Ok n -> (length bs <= fuel)%nat ->
  let s := start_height (db w) in
  let r := fetch_new_blocks client fuel w in
  (in_chain bs s -> fst r = Walked ExitTip /\
                    db (snd r) = blocks_db client (drop (Z.to_nat s) bs) (db w)) /\
  (~ in_chain bs s -> fst r = AbortBlockHash /\ db (snd r) = db w).
Proof.
  intros Hn Hf s r.
  destruct (fetch_new_blocks_served client bs Hserve Hwf fuel w n Hn Hf)
    as (evs & _ & _ & Hm).
  fold s r in Hm. case_decide; split; intros; try done; tauto.
Qed.

(** C3: the blocks are fetched in increasing height order, each exactly
    once, from the start height to the tip: the [getblock] calls of the
    run are the hashes of the chain from height [s] on, so no height is
    skipped and no height below [s] (already stored) is fetched
    again. *)
Theorem fetch_new_blocks_fetch_order fuel w n :
  getblockcount client = Ok n -> (length bs <= fuel)%nat ->
  in_chain bs (start_height (db w)) ->
  exists evs, trace (snd (fetch_new_blocks client fuel w)) = trace w ++ evs /\
    getblock_calls evs = hash <$> drop (Z.to_nat (start_height (db w))) bs.
Proof.
  intros Hn Hf Hs.
  destruct (fetch_new_blocks_served client bs Hserve Hwf fuel w n Hn Hf)
    as (evs & Ht & _ & Hm).
  exists evs. split; [done|]. case_decide; [tauto|done].
Qed.

(** C4: no gaps: if the blocks of the chain below the start height are
    stored, then after the run every block of the chain is stored under
    its key. *)
Theorem fetch_new_blocks_no_gaps fuel w n :
  getblockcount client = Ok n -> (length bs <= fuel)%nat ->
  in_chain bs (start_height (db w)) ->
  chain_stored bs (Z.to_nat (start_height (db w))) (db w) ->
  chain_stored bs (length bs) (db (snd (fetch_new_blocks client fuel w))).
Proof.
  intros Hn Hf Hs Hst.
  destruct (fetch_new_blocks_served client bs Hserve Hwf fuel w n Hn Hf)
    as (evs & _ & _ & Hm).
  case_decide; [|done]. destruct Hm as (_ & -> & _).
  by apply blocks_db_chain_stored.
Qed.

(** The transactions the node serves for the chain do not decode as
    blocks above the tip (bincode decoding is tried as a block first). *)
Definition txs_below_tip : Prop :=
  forall y t tx_data blk, y ∈ bs -> t ∈ tx y ->
    getrawtransaction client t true = Ok tx_data ->
    deserialize_block (serialize_tx (assemble_tx t tx_data)) = Ok blk ->
    height blk < Z.of_nat (length bs).

Definition txs_below_tip_b : bool :=
  forallb (fun y => forallb (fun t =>
    match getrawtransaction client t true with
    | Ok tx_data =>
        match deserialize_block (serialize_tx (assemble_tx t tx_data)) with
        | Ok blk => bool_decide (height blk < Z.of_nat (length bs))
        | Err _ => true
        end
    | Err _ => true
    end) (tx y)) bs.

Lemma txs_below_tip_b_sound : txs_below_tip_b = true -> txs_below_tip.
Proof.
  unfold txs_below_tip_b. rewrite forallb_forall. intros Hall y t td blk Hy Ht Hr Hb.
  specialize (Hall y (proj1 (list_elem_of_In _ _) Hy)).
  rewrite forallb_forall in Hall. specialize (Hall t (proj1 (list_elem_of_In _ _) Ht)).
  rewrite Hr, Hb in Hall. by apply bool_decide_eq_true in Hall.
Qed.

Lemma elem_of_drop_lookup i y :
  y ∈ drop i bs -> exists j, bs !! (i + j)%nat = Some y.
Proof. intros Hy. apply list_elem_of_lookup in Hy as [j Hj]. rewrite lookup_drop in Hj. eauto. Qed.

Lemma watermark_after_sync `{!CodecLaws} fuel w n :
  getblockcount client = Ok n -> (length bs <= fuel)%nat -> bs <> [] ->
  Z.of_nat (length bs) <= i64_max -> forallb valid_block bs = true ->
  txs_below_tip -> get_db_height (db w) < Z.of_nat (length bs) ->
  get_db_height (db (snd (fetch_new_blocks client fuel w))) = Z.of_nat (length bs) - 1.
Proof.
  intros Hn Hf Hne Hmax Hv Htx Hlt.
  pose proof (get_db_height_ge (db w)) as Hge.
  assert (start_height (db w) = get_db_height (db w) + 1) as Es.
  { apply i64_add_small. unfold in_i64, i64_min, i64_max in *. lia. }
  assert (Hval : forall y, y ∈ bs -> deserialize_block (serialize_block y) = Ok y).
  { intros y Hy. apply deserialize_serialize_block.
    rewrite forallb_forall in Hv. by apply Hv, list_elem_of_In. }
  destruct (fetch_new_blocks_served client bs Hserve Hwf fuel w n Hn Hf)
    as (evs & _ & _ & Hm).
  case_decide as Hs; [|unfold in_chain in Hs; destruct Hm as (_ & -> & _); lia].
  destruct Hm as (_ & -> & _).
  destruct (lookup_lt_is_Some_2 bs (length bs - 1)) as [y Hy].
  { destruct bs; [done|simpl; lia]. }
  unfold in_chain in Hs.
  apply (get_db_height_eq _ _ (format_hashes (hash y)) (serialize_block y) y).
  - lia.
  - apply blocks_db_block; [apply nodup_drop, Hwf|].
    apply (block_in_drop bs _ (length bs - 1)); [done|lia].
  - apply Hval. by eapply list_elem_of_lookup_2.
  - rewrite (proj1 (proj2 Hwf _ _ Hy)). lia.
  - intros k v b Hk Hb.
    destruct (blocks_db_cases client _ _ k v Hk)
      as [Hd|[(y' & Hy' & -> & ->)|(y' & t & td & Hy' & Ht & _ & Hr & ->)]].
    + pose proof (get_db_height_upper _ _ _ _ Hd Hb). lia.
    + destruct (elem_of_drop_lookup _ _ Hy') as [j Hj].
      rewrite Hval in Hb by (by eapply list_elem_of_lookup_2). injection Hb as <-.
      rewrite (proj1 (proj2 Hwf _ _ Hj)). apply lookup_lt_Some in Hj. lia.
    + destruct (elem_of_drop_lookup _ _ Hy') as [j Hj].
      pose proof (Htx y' t td b ltac:(by eapply list_elem_of_lookup_2) Ht Hr Hb). lia.
Qed.

(** C8: resuming is idempotent.  After a run that reaches the tip (from
    a store whose watermark is below the tip), the watermark is the
    tip's height, and a second run against the same chain stops at
    [getblockhash(tip + 1)]: it changes nothing in the store and calls
    the node only twice ([getblockcount], [getblockhash]).  This needs
    the transactions not to decode as blocks above the tip. *)
Theorem fetch_new_blocks_idempotent `{!CodecLaws} fuel w n :
  getblockcount client = Ok n -> (length bs <= fuel)%nat -> bs <> [] ->
  Z.of_nat (length bs) <= i64_max -> forallb valid_block bs = true ->
  txs_below_tip -> get_db_height (db w) < Z.of_nat (length bs) ->
  let w1 := snd (fetch_new_blocks client fuel w) in
  let r2 := fetch_new_blocks client fuel w1 in
  get_db_height (db w1) = Z.of_nat (length bs) - 1 /\
  fst r2 = AbortBlockHash /\ db (snd r2) = db w1 /\
  exists evs, trace (snd r2) = trace w1 ++ evs /\
    rpc_calls evs = [CallGetBlockCount; CallGetBlockHash (Z.of_nat (length bs))].
Proof.
  intros Hn Hf Hne Hmax Hv Htx Hlt w1 r2.
  pose proof (watermark_after_sync fuel w n Hn Hf Hne Hmax Hv Htx Hlt) as Hw1.
  fold w1 in Hw1. split; [done|].
  assert (start_height (db w1) = Z.of_nat (length bs)) as Es.
  { unfold start_height. rewrite Hw1, i64_add_small; [lia|].
    unfold in_i64, i64_min, i64_max in *. lia. }
  destruct (fetch_new_blocks_served client bs Hserve Hwf fuel w1 n Hn Hf)
    as (evs & Ht & _ & Hm).
  rewrite Es in Hm. case_decide as Hs; [unfold in_chain in Hs; lia|].
  destruct Hm as (? & ? & ?). split; [done|]. split; [done|]. eauto.
Qed.
End SyncTheorems.

Section BatchTheorem.
Context `{Codec}.

(** C7: the [WriteBatch] of [fetch_new_blocks] is never filled:
    [parse_block] writes with [db.put] directly, so every
    [db.write(batch)] of a run, periodic or final, writes zero entries
    and the batching has no effect, whatever the node answers. *)
Theorem fetch_new_blocks_batches_empty client fuel w :
  exists evs, trace (snd (fetch_new_blocks client fuel w)) = trace w ++ evs /\
    writes_empty evs.
Proof.
  destruct (fetch_new_blocks_run client fuel w) as (evs & Ht & Hw & _).
  eauto.
Qed.
End BatchTheorem.

(** ** Witnesses on the sample chain *)

Definition sample_world : World := mkWorld ∅ [].

Lemma fetch_new_blocks_syncs_witness :
  getblockcount sample_client = Ok 2 /\ (length sample_chain <= 3)%nat /\
  in_chain sample_chain (start_height (db sample_world)) /\
  fst (fetch_new_blocks sample_client 3 sample_world) = Walked ExitTip.
Proof.
  assert (Hs : in_chain sample_chain (start_height (db sample_world)))
    by (split; vm_compute; congruence).
  split; [reflexivity|]. split; [simpl; lia|]. split; [exact Hs|].
  apply (proj1 (fetch_new_blocks_syncs sample_client sample_chain
    sample_client_serves sample_chain_wf 3 sample_world 2 eq_refl ltac:(simpl; lia)) Hs).
Defined.

Lemma fetch_new_blocks_fetch_order_witness :
  exists evs, trace (snd (fetch_new_blocks sample_client 3 sample_world)) = [] ++ evs /\
    getblock_calls evs = ["h0"; "h1"; "h2"].
Proof.
  apply (fetch_new_blocks_fetch_order sample_client sample_chain
    sample_client_serves sample_chain_wf 3 sample_world 2 eq_refl ltac:(simpl; lia)).
  split; vm_compute; congruence.
Defined.

Lemma fetch_new_blocks_no_gaps_witness :
  chain_stored sample_chain 3 (db (snd (fetch_new_blocks sample_client 3 sample_world))).
Proof.
  apply (fetch_new_blocks_no_gaps sample_client sample_chain
    sample_client_serves sample_chain_wf 3 sample_world 2 eq_refl ltac:(simpl; lia)).
  - split; vm_compute; congruence.
  - intros i b _ Hi. vm_compute in Hi. lia.
Defined.

Lemma fetch_new_blocks_idempotent_witness :
  let w1 := snd (fetch_new_blocks sample_client 3 sample_world) in
  get_db_height (db w1) = 2 /\
  fst (fetch_new_blocks sample_client 3 w1) = AbortBlockHash.
Proof.
  destruct (fetch_new_blocks_idempotent sample_client sample_chain
    sample_client_serves sample_chain_wf 3 sample_world 2 eq_refl
    ltac:(simpl; lia) ltac:(discriminate) ltac:(vm_compute; congruence)
    ltac:(vm_compute; reflexivity)
    (@txs_below_tip_b_sound bincode sample_client sample_chain ltac:(vm_compute; reflexivity))
    ltac:(vm_compute; reflexivity)) as (H1 & H2 & _).
  split; [exact H1|exact H2].
Defined.

(** ** Error paths, bounds and the end-to-end scenario *)

Section MoreTheorems.
Context `{Codec}.

(** C12: when [getblockcount] fails, or the start height has no hash
    ([getblockhash] fails: nothing new, or the node is unreachable), the
    run aborts before the loop: the store is unchanged and the node saw
    only those one or two calls. *)
Theorem fetch_new_blocks_abort client fuel w :
  is_ok (getblockcount client) && is_ok (getblockhash client (start_height (db w))) = false ->
  let r := fetch_new_blocks client fuel w in
  (fst r = AbortBlockCount \/ fst r = AbortBlockHash) /\ db (snd r) = db w /\
  exists evs, trace (snd r) = trace w ++ evs /\
    (rpc_calls evs = [CallGetBlockCount] \/
     rpc_calls evs = [CallGetBlockCount; CallGetBlockHash (start_height (db w))]).
Proof.
  intros Hf r. destruct (fetch_new_blocks_run client fuel w) as (evs & Ht & _ & Hm).
  fold r in Hm. unfold start_height in *.
  destruct (getblockcount client); simpl in Hf.
  - destruct (getblockhash client _); [done|].
    destruct Hm as (? & ? & ?). split; [by right|]. split; [done|]. eauto.
  - destruct Hm as (? & ? & ?). split; [by left|]. split; [done|]. eauto.
Qed.
End MoreTheorems.

Definition failing_client : Client :=
  mkClient (Err Connectivity) (fun _ => Err Connectivity)
    (fun _ => Err Connectivity) (fun _ _ => Err Connectivity).

Lemma fetch_new_blocks_abort_witness :
  is_ok (getblockcount failing_client) &&
    is_ok (getblockhash failing_client (start_height (db sample_world))) = false /\
  db (snd (fetch_new_blocks failing_client 5 sample_world)) = ∅.
Proof.
  split; [reflexivity|].
  apply (fetch_new_blocks_abort failing_client 5 sample_world). reflexivity.
Defined.

(** With bincode, the watermark is at most [i64::MAX]. *)
Lemma get_db_height_bincode_le (d : DB) : get_db_height d <= i64_max.
Proof.
  destruct (get_db_height_attained d) as [->|(k & v & b & _ & Hb & <-)].
  - unfold i64_max. lia.
  - apply bincode_block_height_i64 in Hb. unfold in_i64 in Hb. lia.
Qed.

(** C13: with bincode, the start height is the watermark plus one, except
    at [i64::MAX], where a release build wraps around to [i64::MIN] (and
    [getblockhash] is then asked for a negative height). *)
Theorem start_height_bincode (d : DB) :
  start_height d =
  if decide (get_db_height d = i64_max) then i64_min else get_db_height d + 1.
Proof.
  pose proof (get_db_height_ge d). pose proof (get_db_height_bincode_le d).
  unfold start_height. case_decide as E.
  - rewrite E. apply i64_add_max.
  - apply i64_add_small. unfold in_i64, i64_min, i64_max in *. lia.
Qed.

(** ** A transaction record read as a block *)

(** A version-2 transaction of type 0 whose size is a multiple of 256:
    its bincode bytes also decode as a [FullBlock] (hash = txid,
    height = version, no transactions, no successor), since
    [bincode::deserialize] accepts trailing bytes. *)
Definition ambiguous_tx : GetRawTransactionInfo :=
  mkTxInfo "t0" 2 0 512 0 ["coinbase"] ["out0"] "0200" None None None None
    None None None None (Some "h0") (Some 1) (Some 1700000000) (Some 1700000000).

Definition early_chain : list FullBlock := [mkFullBlock "h0" 0 ["t0"] None].

Definition grown_chain : list FullBlock := [
  mkFullBlock "h0" 0 ["t0"] (Some "h1");
  mkFullBlock "h1" 1 ["t1"] (Some "h2");
  mkFullBlock "h2" 2 ["t2"] None
].

Definition grown_txs : gmap string GetRawTransactionInfo :=
  <["t0" := ambiguous_tx]> sample_txs.

Section Masking.
Context `{Codec} (client : Client) (bs : list FullBlock).
Context (Hserve : ServesChain client bs) (Hwf : chain_wf bs).

(** C14: a stored value that decodes as a block hides the blocks below
    it.  [get_db_height] decodes every value of the store as a
    [FullBlock] first, whatever its key (line 169).  If some value, a
    transaction record among them, decodes as a block of height [h], the
    watermark is at least [h], and a run on a served chain fetches no
    block of height [h] or less: each of those block keys keeps what it
    held, so a block missing there is never stored (spec section 8, no
    gaps; section 9 names the ambiguity).  Whether a real transaction
    record decodes so depends on the layout of the [rusty_piv] records;
    the theorem holds for every codec. *)
Theorem decoded_record_hides_blocks fuel w k v b i y :
  (length bs <= fuel)%nat -> get_db_height (db w) < i64_max ->
  db w !! k = Some v -> deserialize_block v = Ok b ->
  bs !! i = Some y -> Z.of_nat i <= height b ->
  db (snd (fetch_new_blocks client fuel w)) !! format_hashes (hash y) =
  db w !! format_hashes (hash y).
Proof.
  intros Hf Hmax Hk Hb Hy Hi.
  pose proof (get_db_height_upper _ _ _ _ Hk Hb) as Hup.
  pose proof (get_db_height_ge (db w)) as Hge.
  destruct (getblockcount client) as [n|e] eqn:E.
  - destruct (fetch_new_blocks_served client bs Hserve Hwf fuel w n E Hf) as (evs & _ & _ & Hr).
    case_decide as Hc; destruct Hr as (_ & -> & _); [|done].
    apply blocks_db_frame_block. apply (hash_not_in_drop bs Hwf _ i y Hy).
    unfold start_height. rewrite i64_add_small by (unfold in_i64, i64_min, i64_max in *; lia).
    lia.
  - destruct (fetch_new_blocks_run client fuel w) as (evs & _ & _ & Hr).
    rewrite E in Hr. by destruct Hr as (_ & -> & _).
Qed.

End Masking.

(** A first run against a node whose chain is only the genesis block
    stores the block and its transaction [t0]; with the modelled field
    layout, the record of [t0] decodes as a block of height 2.  When the
    chain has grown to three blocks, the next run never stores block
    [h1]. *)
Lemma decoded_record_hides_blocks_witness :
  let w1 := snd (fetch_new_blocks (chain_client early_chain grown_txs) 1 sample_world) in
  ((length grown_chain <= 3)%nat /\ get_db_height (db w1) < i64_max /\
   db w1 !! tx_key "t0" = Some (serialize_tx ambiguous_tx) /\
   deserialize_block (serialize_tx ambiguous_tx) = Ok (mkFullBlock "t0" 2 [] None) /\
   grown_chain !! 1%nat = Some (mkFullBlock "h1" 1 ["t1"] (Some "h2")) /\
   Z.of_nat 1 <= height (mkFullBlock "t0" 2 [] None)) /\
  db (snd (fetch_new_blocks (chain_client grown_chain grown_txs) 3 w1)) !! format_hashes "h1" =
  db w1 !! format_hashes "h1".
Proof.
  intros w1.
  assert (Hwf : chain_wf grown_chain) by (apply chain_wf_b_sound; vm_compute; reflexivity).
  assert (Hf : (length grown_chain <= 3)%nat) by (simpl; lia).
  assert (Hm : get_db_height (db w1) < i64_max) by (vm_compute; reflexivity).
  assert (Hk : db w1 !! tx_key "t0" = Some (serialize_tx ambiguous_tx)) by (vm_compute; reflexivity).
  assert (Hb : deserialize_block (serialize_tx ambiguous_tx) = Ok (mkFullBlock "t0" 2 [] None))
    by (vm_compute; reflexivity).
  assert (Hy : grown_chain !! 1%nat = Some (mkFullBlock "h1" 1 ["t1"] (Some "h2"))) by reflexivity.
  assert (Hi : Z.of_nat 1 <= height (mkFullBlock "t0" 2 [] None)) by (simpl; lia).
  split; [split_and!; assumption|].
  exact (decoded_record_hides_blocks (chain_client grown_chain grown_txs) grown_chain
           (chain_client_serves grown_chain grown_txs Hwf) Hwf 3 w1 _ _ _ 1 _ Hf Hm Hk Hb Hy Hi).
Defined.

(** Under bincode the start height is [get_db_height + 1] whenever it is
    a height of the chain: the wrap at [i64::MAX] gives a negative one. *)
Lemma start_height_nonneg (d : DB) :
  0 <= start_height d -> start_height d = get_db_height d + 1.
Proof.
  unfold start_height. intros Hs.
  pose proof (get_db_height_bincode_le d). pose proof (get_db_height_ge d).
  destruct (decide (get_db_height d = i64_max)) as [E|E].
  - rewrite E, i64_add_max in Hs. unfold i64_min in Hs. lia.
  - apply i64_add_small. unfold in_i64, i64_min, i64_max in *. lia.
Qed.
