(* ===== verification/Machine.v ===== *)
(** * Machine: [fetch_new_blocks] as a small-step machine

    The functional model of [Sync.v] runs [fetch_new_blocks] to its end.
    A process can be killed between any two statements of
    src/src/main.rs, so this file cuts the same code into the steps
    between which a crash can happen.  The program counter [Pc] names
    the point reached in lines 10-87 and 89-160 of main.rs; a machine
    state [Mach] pairs it with the world (the RocksDB store and the
    trace).  Each rule of [step] runs the same monadic fragment as the
    functional model between two such points; a crash leaves the store
    of the state it happens in.

    - the machine is deterministic, and every run of the functional
      model that does not run out of fuel is an execution of the
      machine ([fetch_new_blocks_star]), hence its only complete one;
    - on a served chain every execution is finite ([machine_terminates]);
      a node that serves a cycle makes it run forever ([cycle_diverges]);
    - [crash_inv]: the invariant of reachable states, by rule induction,
      from which the stores a crash can leave are characterised
      ([crash_store_prefix]);
    - a restart after a crash anywhere leaves the store of the
      uninterrupted run except the transactions of the block the crash
      cut off ([crash_recovery]). *)

From stdpp Require Import base list gmap strings.
From Stdlib Require Import ZArith Lia.
From S2P Require Import Prelude Types Codec Bincode Store Rpc Scan Parse Sync.

Local Open Scope sync_scope.
Local Open Scope Z_scope.

(** The program points of [fetch_new_blocks] at which a crash is
    observable: before the [getblockcount] call (line 13), before
    [getblockhash] (line 37), at the head of the [loop] (line 47), inside
    [parse_block] before the remaining transactions of [block] (the
    [for] of line 99), before the final [db.write] (line 86), and after
    the function returned. *)
Inductive Pc : Type :=
| PcStart
| PcResolve
| PcLoop (current_block_height : Z) (block_hash : string) (batch : WriteBatch)
| PcTxs (current_block_height : Z) (block : FullBlock) (rest : list string)
    (batch : WriteBatch)
| PcFinal (exit : LoopExit) (batch : WriteBatch)
| PcDone (r : SyncResult).

Record Mach : Type := mkMach { pc : Pc; mworld : World }.

Section Machine.
Context `{Codec} (client : Client).

(** One rule per branch of lines 13-87 and of the [for] of
    [parse_block]. *)
Inductive step : Mach -> Mach -> Prop :=
| step_count_err w w1 err :
    call_getblockcount client w = (Err err, w1) ->
    step (mkMach PcStart w)
      (mkMach (PcDone AbortBlockCount) (snd (eprintln (DiagBlockCount err) w1)))
| step_count_ok w w1 n :
    call_getblockcount client w = (Ok n, w1) ->
    step (mkMach PcStart w) (mkMach PcResolve w1)
| step_hash_err w w1 err :
    let s := i64_add (get_db_height (db w)) 1 in
    call_getblockhash client s w = (Err err, w1) ->
    step (mkMach PcResolve w)
      (mkMach (PcDone AbortBlockHash) (snd (eprintln (DiagBlockHash s err) w1)))
| step_hash_ok w w1 hs :
    let s := i64_add (get_db_height (db w)) 1 in
    call_getblockhash client s w = (Ok hs, w1) ->
    step (mkMach PcResolve w) (mkMach (PcLoop s hs []) w1)
| step_block_err h hs b w w1 err :
    call_getblock client hs w = (Err err, w1) ->
    step (mkMach (PcLoop h hs b) w)
      (mkMach (PcFinal ExitGetBlockFailed b) (snd (eprintln (DiagBlock hs err) w1)))
| step_block_ok h hs b w w1 block :
    call_getblock client hs w = (Ok block, w1) ->
    step (mkMach (PcLoop h hs b) w)
      (mkMach (PcTxs h block (tx block) b)
         (snd (db_put (format_hashes (hash block)) (serialize_block block) w1)))
| step_tx h block t rest b w :
    step (mkMach (PcTxs h block (t :: rest) b) w)
      (mkMach (PcTxs h block rest b) (snd (parse_transaction client t w)))
| step_next h block b w b' w1 nh :
    nextblockhash block = Some nh ->
    maybe_flush h b w = (b', w1) ->
    step (mkMach (PcTxs h block [] b) w) (mkMach (PcLoop (i64_add h 1) nh b') w1)
| step_tip h block b w :
    nextblockhash block = None ->
    step (mkMach (PcTxs h block [] b) w) (mkMach (PcFinal ExitTip b) w)
| step_final e b w :
    step (mkMach (PcFinal e b) w) (mkMach (PcDone (Walked e)) (snd (db_write b w))).

Definition init (w : World) : Mach := mkMach PcStart w.

Definition is_done (m : Mach) : bool :=
  match pc m with PcDone _ => true | _ => false end.

End Machine.

#[export] Hint Constructors step : sync.

Section MachineLemmas.
Context `{Codec} (client : Client).

Lemma step_deterministic : deterministic (step client).
Proof.
  intros a b c Hb Hc.
  destruct Hb; inversion Hc; subst;
    repeat match goal with s := _ |- _ => unfold s in *; clear s end;
    repeat match goal with
    | H1 : ?x = _, H2 : ?x = _ |- _ => rewrite H1 in H2; simplify_eq
    end; congruence.
Qed.

Lemma done_irred r w : irred (step client) (mkMach (PcDone r) w).
Proof. intros m Hm. inversion Hm. Qed.

(** A state that is not final can always step: the machine never gets
    stuck before [fetch_new_blocks] returns. *)
Lemma step_progress m : is_done m = false -> exists m', step client m m'.
Proof.
  destruct m as [[| |h hs b|h blk [|t rest] b|e b|r] w]; simpl; intros Hd; try done.
  - destruct (getblockcount client) as [n|err] eqn:E; eexists.
    + eapply step_count_ok. unfold call_getblockcount, bind, ret, emit. by rewrite E.
    + eapply step_count_err. unfold call_getblockcount, bind, ret, emit. by rewrite E.
  - destruct (getblockhash client (i64_add (get_db_height (db w)) 1)) eqn:E; eexists.
    + eapply step_hash_ok. unfold call_getblockhash, bind, ret, emit. by rewrite E.
    + eapply step_hash_err. unfold call_getblockhash, bind, ret, emit. by rewrite E.
  - destruct (getblock client hs) eqn:E; eexists.
    + eapply step_block_ok. unfold call_getblock, bind, ret, emit. by rewrite E.
    + eapply step_block_err. unfold call_getblock, bind, ret, emit. by rewrite E.
  - destruct (nextblockhash blk) eqn:E; eexists.
    + eapply step_next; [done|]. apply surjective_pairing.
    + by eapply step_tip.
  - eexists. apply step_tx.
  - eexists. apply step_final.
Qed.

Lemma irred_is_done m : irred (step client) m -> is_done m = true.
Proof.
  intros Hi. destruct (is_done m) eqn:E; [done|].
  destruct (step_progress m E) as [m' Hm]. by destruct (Hi m').
Qed.

(** The transactions of a block, one step each. *)
Lemma txs_star h blk l b w :
  star (step client) (mkMach (PcTxs h blk l b) w)
    (mkMach (PcTxs h blk [] b) (snd (for_each l (parse_transaction client) w))).
Proof.
  revert w. induction l as [|t l IH]; intros w; [constructor|].
  simpl for_each. rewrite bind_run. eapply star_step; [apply step_tx|]. apply IH.
Qed.

Lemma fetch_loop_star fuel h hs b w :
  let r := fetch_loop client fuel h hs b w in
  fst (fst r) <> ExitOutOfFuel ->
  star (step client) (mkMach (PcLoop h hs b) w)
    (mkMach (PcFinal (fst (fst r)) (snd (fst r))) (snd r)).
Proof.
  revert h hs b w. induction fuel as [|fuel IH]; intros h hs b w r Hr; [done|].
  subst r. simpl fetch_loop in *. rewrite bind_run in *.
  destruct (call_getblock client hs w) as [[block|err] w1] eqn:E; simpl in *.
  - unfold parse_block in *. rewrite !bind_run in *.
    eapply star_step; [by apply step_block_ok|].
    eapply star_trans; [apply txs_star|].
    destruct (nextblockhash block) as [nh|] eqn:En.
    + rewrite bind_run in *.
      destruct (maybe_flush h b _) as [b' w3] eqn:Ef; simpl in *.
      eapply star_step; [by eapply step_next|]. by apply IH.
    + apply star_one. by apply step_tip.
  - apply star_one. by apply step_block_err.
Qed.

(** Every run of [fetch_new_blocks] that ends before the fuel does is an
    execution of the machine from [init]. *)
Lemma fetch_new_blocks_star fuel w :
  let r := fetch_new_blocks client fuel w in
  fst r <> Walked ExitOutOfFuel ->
  star (step client) (init w) (mkMach (PcDone (fst r)) (snd r)).
Proof.
  intros r Hr. subst r. unfold fetch_new_blocks, init in *. rewrite bind_run in *.
  destruct (call_getblockcount client w) as [[n|err] w1] eqn:E; cbn [fst snd] in *.
  - eapply star_step; [by eapply step_count_ok|].
    rewrite bind_run in *. unfold read_db_height in *. cbn [fst snd] in *.
    set (s := i64_add (get_db_height (db w1)) 1) in *.
    rewrite bind_run in *.
    destruct (call_getblockhash client s w1) as [[hs|err] w2] eqn:E2; cbn [fst snd] in *.
    + eapply star_step; [by eapply step_hash_ok|].
      rewrite !bind_run in *.
      pose proof (fetch_loop_star fuel s hs [] w2) as Hs.
      destruct (fetch_loop client fuel s hs [] w2) as [[e b] w3].
      cbn [fst snd] in *. eapply star_trans.
      * apply Hs. intros ->. by apply Hr.
      * apply star_one. apply step_final.
    + apply star_one. by eapply step_hash_err.
  - apply star_one. by eapply step_count_err.
Qed.

End MachineLemmas.

Section Served.
Context `{Codec} (client : Client) (bs : list FullBlock).
Context (Hserve : ServesChain client bs) (Hwf : chain_wf bs).

(** With as much fuel as the chain is long, the functional model never
    runs out of it. *)
Lemma served_completes w :
  fst (fetch_new_blocks client (length bs) w) <> Walked ExitOutOfFuel.
Proof.
  destruct (getblockcount client) as [n|err] eqn:E.
  - destruct (fetch_new_blocks_served client bs Hserve Hwf (length bs) w n E)
      as (evs & _ & _ & Hr); [lia|].
    case_decide; destruct Hr as [-> _]; congruence.
  - destruct (fetch_new_blocks_run client (length bs) w) as (evs & _ & _ & Hr).
    rewrite E in Hr. destruct Hr as [-> _]. congruence.
Qed.

Lemma served_star w :
  let r := fetch_new_blocks client (length bs) w in
  star (step client) (init w) (mkMach (PcDone (fst r)) (snd r)).
Proof. apply fetch_new_blocks_star, served_completes. Qed.

(** C18: termination.  On a node serving a well-formed chain, every
    execution of [fetch_new_blocks] is finite: the initial state is
    accessible for the converse of [step], so no infinite sequence of
    steps starts from it.  The [loop] of lines 47-84 carries no bound of
    its own; it ends because the chain's last block has no
    [nextblockhash]. *)
Theorem machine_terminates w : Acc (fun y x => step client x y) (init w).
Proof.
  eapply star_irred_acc; [apply step_deterministic|apply served_star|apply done_irred].
Qed.

End Served.

(** ** Crash consistency *)

Section Crash.
Context `{Codec} (client : Client) (bs : list FullBlock).
Context (Hserve : ServesChain client bs) (Hwf : chain_wf bs).

(** The RPC calls leave the store alone. *)
Lemma call_db_run {A} (e : RpcCall) (x : A) w :
  (emit (EvRpc e) ;; ret x) w = (x, mkWorld (db w) (trace w ++ [EvRpc e])).
Proof. done. Qed.

Ltac call_inv :=
  repeat match goal with
  | H : call_getblockcount _ _ = _ |- _ => unfold call_getblockcount in H
  | H : call_getblockhash _ _ _ = _ |- _ => unfold call_getblockhash in H
  | H : call_getblock _ _ _ = _ |- _ => unfold call_getblock in H
  | H : (emit (EvRpc _) ;; ret _) _ = _ |- _ => rewrite call_db_run in H
  end; simplify_eq/=.

Variable d0 : DB.

(** The blocks [fetch_new_blocks] will fetch from the store [d0]. *)
Definition rem : list FullBlock := drop (Z.to_nat (start_height d0)) bs.

(** The store after the first [j] blocks of [rem] were parsed. *)
Definition stored (j : nat) : DB := blocks_db client (take j rem) d0.

(** The invariant of the states reachable from a world whose store is
    [d0]: what the store holds at each program point. *)
Definition crash_inv (m : Mach) : Prop :=
  let d := db (mworld m) in
  match pc m with
  | PcStart | PcResolve => d = d0
  | PcLoop _ hs b =>
      b = [] /\ exists j y, rem !! j = Some y /\ hs = hash y /\ d = stored j
  | PcTxs _ y rest b =>
      b = [] /\ exists j pre, rem !! j = Some y /\ tx y = pre ++ rest /\
      d = fold_left (tx_db client) pre
            (<[format_hashes (hash y) := serialize_block y]> (stored j))
  | PcFinal e b => b = [] /\ e = ExitTip /\ d = blocks_db client rem d0
  | PcDone r =>
      (r = Walked ExitTip /\ d = blocks_db client rem d0) \/
      ((r = AbortBlockCount \/ r = AbortBlockHash) /\ d = d0)
  end.

Lemma rem_lookup j : rem !! j = bs !! (Z.to_nat (start_height d0) + j)%nat.
Proof. apply lookup_drop. Qed.

Lemma rem_elem_of j y : rem !! j = Some y -> y ∈ bs.
Proof. rewrite rem_lookup. apply list_elem_of_lookup_2. Qed.

Lemma stored_S j y : rem !! j = Some y -> stored (S j) = parse_block_db client y (stored j).
Proof.
  intros Hj. unfold stored, blocks_db. by rewrite (take_S_r _ _ _ Hj), fold_left_app.
Qed.

(** The block after [rem !! j] is the one its [nextblockhash] names. *)
Lemma rem_next j y : rem !! j = Some y -> nextblockhash y = hash <$> rem !! S j.
Proof.
  intros Hj. rewrite rem_lookup in Hj. rewrite rem_lookup, <- Nat.add_succ_comm.
  apply (proj2 Hwf _ _ Hj).
Qed.

Lemma crash_inv_hash_ok w w1 hs :
  db w = d0 ->
  call_getblockhash client (i64_add (get_db_height (db w)) 1) w = (Ok hs, w1) ->
  crash_inv (mkMach (PcLoop (i64_add (get_db_height (db w)) 1) hs []) w1).
Proof.
  intros Hd Hc. unfold call_getblockhash in Hc. rewrite call_db_run in Hc.
  injection Hc as Hc <-. split; [done|].
  fold (start_height (db w)) in *. rewrite Hd in *.
  destruct (decide (0 <= start_height d0 < Z.of_nat (length bs))) as [Hs|Hs];
    [|pose proof (serves_hash_outside _ _ Hserve _ Hs) as Ho; by rewrite Hc in Ho].
  destruct (lookup_lt_is_Some_2 bs (Z.to_nat (start_height d0))) as [y Hy]; [lia|].
  pose proof (serves_hash _ _ Hserve _ _ Hy) as Hh. rewrite Z2Nat.id in Hh by lia.
  exists 0%nat, y. rewrite rem_lookup, Nat.add_0_r. unfold stored. rewrite take_0.
  split; [done|]. split; [congruence|done].
Qed.

Lemma crash_inv_step m m' : step client m m' -> crash_inv m -> crash_inv m'.
Proof.
  intros Hst Hi. destruct Hst; unfold crash_inv in *; cbn [pc mworld] in *.
  - call_inv. right. naive_solver.
  - by call_inv.
  - call_inv. right. naive_solver.
  - by apply (crash_inv_hash_ok w w1 hs).
  - call_inv. destruct Hi as [-> (j & y & Hj & -> & _)].
    by rewrite (serves_block _ _ Hserve _ (rem_elem_of _ _ Hj)) in H0.
  - call_inv. destruct Hi as [-> (j & y & Hj & -> & Hd)].
    rewrite (serves_block _ _ Hserve _ (rem_elem_of _ _ Hj)) in H0. simplify_eq.
    split; [done|]. exists j, []. simpl. by rewrite Hd.
  - destruct Hi as [-> (j & pre & Hj & Ht & Hd)]. split; [done|].
    exists j, (pre ++ [t]). rewrite parse_transaction_run, fold_left_app, <- Hd. simpl.
    split; [done|]. by rewrite Ht, <- app_assoc.
  - destruct Hi as [-> (j & pre & Hj & Ht & Hd)].
    destruct (maybe_flush_empty h w) as (evs & Hf & _). rewrite Hf in H1. simplify_eq/=.
    split; [done|]. rewrite (rem_next j block Hj) in H0.
    destruct (rem !! S j) as [y'|] eqn:Hj'; simplify_eq/=.
    exists (S j), y'. split; [done|]. split; [done|].
    rewrite (stored_S j block Hj). unfold parse_block_db. by rewrite Hd, Ht, app_nil_r.
  - destruct Hi as [-> (j & pre & Hj & Ht & Hd)]. split; [done|]. split; [done|].
    rewrite (rem_next j block Hj) in H0. destruct (rem !! S j) eqn:Hj'; [done|].
    apply lookup_ge_None_1 in Hj'. rewrite Hd, <- (take_ge rem (S j)) by lia.
    change (blocks_db client (take (S j) rem) d0) with (stored (S j)).
    rewrite (stored_S j block Hj). unfold parse_block_db. by rewrite Ht, app_nil_r.
  - destruct Hi as [-> [-> Hd]]. left. split; [done|]. exact Hd.
Qed.

Lemma crash_inv_star w m :
  db w = d0 -> star (step client) (init w) m -> crash_inv m.
Proof.
  intros Hd Hm. assert (crash_inv (init w)) as Hi by done.
  induction Hm; eauto using crash_inv_step.
Qed.

(** The stores a crash can leave: [d0] after the first [j] blocks of
    [rem], possibly followed by the record of block [j] and a prefix of
    its transactions. *)
Definition crash_store (d : DB) : Prop :=
  (exists j, (j <= length rem)%nat /\ d = stored j) \/
  (exists j y pre rest, rem !! j = Some y /\ tx y = pre ++ rest /\
     d = fold_left (tx_db client) pre
           (<[format_hashes (hash y) := serialize_block y]> (stored j))).

Lemma stored_full : stored (length rem) = blocks_db client rem d0.
Proof. unfold stored. by rewrite take_ge. Qed.

Lemma crash_inv_store m : crash_inv m -> crash_store (db (mworld m)).
Proof.
  unfold crash_store. intros Hi.
  destruct m as [[| |h hs b|h y rest b|e b|r] w']; unfold crash_inv in Hi; simpl in *.
  - left. exists 0%nat. split; [lia|done].
  - left. exists 0%nat. split; [lia|done].
  - destruct Hi as [_ (j & y & Hj & _ & Hd)]. left. exists j.
    split; [|done]. apply lookup_lt_Some in Hj. lia.
  - destruct Hi as [_ (j & pre & Hj & Ht & Hd)]. right. by exists j, y, pre, rest.
  - destruct Hi as (_ & _ & Hd). left. exists (length rem). by rewrite stored_full.
  - left. destruct Hi as [[_ Hd]|[_ Hd]].
    + exists (length rem). by rewrite stored_full.
    + exists 0%nat. split; [lia|done].
Qed.

End Crash.

Section CrashTheorems.
Context `{Codec} (client : Client) (bs : list FullBlock).
Context (Hserve : ServesChain client bs) (Hwf : chain_wf bs).

(** C19: crash consistency.  Whatever point an execution of
    [fetch_new_blocks] on a served chain is killed at, the store it
    leaves is the initial store [d0] after the first [j] blocks from the
    start height were parsed, possibly followed by the record of block
    [j] and the transactions of a prefix of its [tx] list.  No block is
    stored before its predecessor and its transactions are. *)
Theorem crash_store_prefix w m :
  star (step client) (init w) m ->
  let d0 := db w in
  (exists j, (j <= length (rem bs d0))%nat /\ db (mworld m) = stored client bs d0 j) \/
  (exists j y pre rest, rem bs d0 !! j = Some y /\ tx y = pre ++ rest /\
     db (mworld m) = fold_left (tx_db client) pre
       (<[format_hashes (hash y) := serialize_block y]> (stored client bs d0 j))).
Proof.
  intros Hm d0. apply (crash_inv_store client bs d0 m).
  by apply (crash_inv_star client bs Hserve Hwf d0 w m).
Qed.

End CrashTheorems.

(** ** Recovery after a crash

    A restart runs [fetch_new_blocks] again from the store a crash left.
    It rescans the watermark and resumes above the highest stored block,
    so it completes what the crashed run would have stored, except the
    transactions of the block the crash interrupted. *)

(** No transaction record of the chain decodes as a block (the
    ambiguity of [Sync.decoded_record_hides_blocks] does not arise). *)
Definition txs_not_blocks (client : Client) (bs : list FullBlock) : Prop :=
  forall y t tx_data, y ∈ bs -> t ∈ tx y ->
    getrawtransaction client t true = Ok tx_data ->
    is_ok (deserialize_block (serialize_tx (assemble_tx t tx_data))) = false.

Section Recovery.
Context (client : Client) (bs : list FullBlock).
Context (Hserve : ServesChain client bs) (Hwf : chain_wf bs).
Context (Hv : forallb valid_block bs = true) (Hmax : Z.of_nat (length bs) <= i64_max).
Context (Htx : txs_not_blocks client bs).
Context (n : Z) (Hn : getblockcount client = Ok n).
Context (d0 : DB) (Hs0 : 0 <= start_height d0).

Lemma chain_decode y : y ∈ bs -> deserialize_block (serialize_block y) = Ok y.
Proof.
  intros Hy. apply deserialize_serialize_block.
  rewrite forallb_forall in Hv. by apply Hv, list_elem_of_In.
Qed.

Lemma rem_height j y : rem bs d0 !! j = Some y -> height y = start_height d0 + Z.of_nat j.
Proof.
  intros Hj. rewrite rem_lookup in Hj. rewrite (proj1 (proj2 Hwf _ _ Hj)). lia.
Qed.

Lemma rem_in_chain j y : rem bs d0 !! j = Some y ->
  start_height d0 + Z.of_nat j < Z.of_nat (length bs).
Proof. intros Hj. rewrite rem_lookup in Hj. apply lookup_lt_Some in Hj. lia. Qed.

(** Every value of [stored j] that decodes as a block is at most as high
    as block [j - 1] of [rem]. *)
Lemma stored_bound j k v b :
  stored client bs d0 j !! k = Some v -> deserialize_block v = Ok b ->
  height b <= start_height d0 + Z.of_nat j - 1.
Proof.
  intros Hk Hb. pose proof (start_height_nonneg d0 Hs0) as Es.
  destruct (blocks_db_cases client _ _ k v Hk)
    as [Hd|[(y & Hy & -> & ->)|(y & t & td & Hy & Ht & -> & Hr & ->)]].
  - pose proof (get_db_height_upper _ _ _ _ Hd Hb). lia.
  - apply elem_of_take in Hy as (i & Hi & Hij).
    rewrite chain_decode in Hb by (by eapply rem_elem_of). injection Hb as <-.
    rewrite (rem_height i y Hi). lia.
  - apply elem_of_take in Hy as (i & Hi & _).
    pose proof (Htx y t td ltac:(by eapply rem_elem_of) Ht Hr) as Hno.
    by rewrite Hb in Hno.
Qed.

Lemma nodup_take_rem j : NoDup (hash <$> take j (rem bs d0)).
Proof.
  rewrite fmap_take. eapply sublist_NoDup; [|apply sublist_take].
  by apply (nodup_drop bs Hwf).
Qed.

(** The watermark of a store a crash left between two blocks. *)
Lemma stored_watermark j :
  (j <= length (rem bs d0))%nat ->
  get_db_height (stored client bs d0 j) = start_height d0 + Z.of_nat j - 1.
Proof.
  pose proof (start_height_nonneg d0 Hs0) as Es. intros Hj.
  destruct j as [|j]; [change (stored client bs d0 0) with d0; lia|].
  destruct (lookup_lt_is_Some_2 (rem bs d0) j) as [y Hy]; [lia|].
  apply (get_db_height_eq _ _ (format_hashes (hash y)) (serialize_block y) y).
  - pose proof (get_db_height_ge d0). lia.
  - apply blocks_db_block; [apply nodup_take_rem|].
    apply elem_of_take. exists j. split; [done|lia].
  - apply chain_decode. by eapply rem_elem_of.
  - rewrite (rem_height j y Hy). lia.
  - intros k v b Hk Hb. pose proof (stored_bound (S j) k v b Hk Hb). lia.
Qed.

(** The store a crash left inside block [j], after the transactions
    [pre]. *)
Definition partial_store (j : nat) (y : FullBlock) (pre : list string) : DB :=
  fold_left (tx_db client) pre
    (<[format_hashes (hash y) := serialize_block y]> (stored client bs d0 j)).

Lemma partial_watermark j y pre rest :
  rem bs d0 !! j = Some y -> tx y = pre ++ rest ->
  get_db_height (partial_store j y pre) = start_height d0 + Z.of_nat j.
Proof.
  intros Hy Ht. pose proof (start_height_nonneg d0 Hs0) as Es.
  assert (Hbs : y ∈ bs) by (by eapply rem_elem_of).
  apply (get_db_height_eq _ _ (format_hashes (hash y)) (serialize_block y) y).
  - pose proof (get_db_height_ge d0). lia.
  - unfold partial_store. rewrite fold_tx_db_frame by (intros t _; apply format_hashes_ne_tx_key).
    by rewrite lookup_insert_eq.
  - by apply chain_decode.
  - by rewrite (rem_height j y Hy).
  - intros k v b Hk Hb. unfold partial_store in Hk.
    destruct (fold_tx_db_out client pre (<[format_hashes (hash y) := serialize_block y]> (stored client bs d0 j)) k) as [E|(t & td & Hpre & -> & Hr & E)];
      rewrite E in Hk.
    + destruct (decide (k = format_hashes (hash y))) as [->|Hne].
      * rewrite lookup_insert_eq in Hk. injection Hk as <-.
        rewrite chain_decode in Hb by done. injection Hb as <-. rewrite (rem_height j y Hy). lia.
      * rewrite lookup_insert_ne in Hk by congruence.
        pose proof (stored_bound j k v b Hk Hb). lia.
    + injection Hk as <-.
      pose proof (Htx y t td Hbs ltac:(rewrite Ht; set_solver) Hr) as Hno.
      simpl in Hno, Hb. by rewrite Hb in Hno.
Qed.

(** A run on a served chain from a store whose start height does not
    wrap stores the chain from that height on. *)
Lemma restart_db w :
  0 <= start_height (db w) ->
  db (snd (fetch_new_blocks client (length bs) w)) =
  blocks_db client (drop (Z.to_nat (start_height (db w))) bs) (db w).
Proof.
  intros Hs. destruct (fetch_new_blocks_served client bs Hserve Hwf (length bs) w n Hn)
    as (evs & _ & _ & Hr); [done|].
  case_decide as Hc; destruct Hr as (_ & -> & _); [done|].
  unfold in_chain in Hc. rewrite drop_ge by lia. done.
Qed.

Lemma fold_tx_db_agree l (A B : DB) k :
  A !! k = B !! k -> fold_left (tx_db client) l A !! k = fold_left (tx_db client) l B !! k.
Proof.
  revert A B. induction l as [|t l IH]; intros A B Hk; [done|]. simpl. apply IH.
  unfold tx_db. destruct (getrawtransaction client t true); [|done].
  destruct (decide (k = tx_key t)) as [->|Hne];
    [by rewrite !lookup_insert_eq|by rewrite !lookup_insert_ne by congruence].
Qed.

(** Parsing the same blocks into two stores that agree on a key keeps
    them agreeing on it. *)
Lemma blocks_db_agree l (A B : DB) k :
  A !! k = B !! k -> blocks_db client l A !! k = blocks_db client l B !! k.
Proof.
  revert A B. induction l as [|y l IH]; intros A B Hk; [done|].
  rewrite !blocks_db_cons. apply IH. unfold parse_block_db. apply fold_tx_db_agree.
  destruct (decide (k = format_hashes (hash y))) as [->|Hne];
    [by rewrite !lookup_insert_eq|by rewrite !lookup_insert_ne by congruence].
Qed.

End Recovery.

Lemma blocks_db_app `{Codec} client l1 l2 d :
  blocks_db client (l1 ++ l2) d = blocks_db client l2 (blocks_db client l1 d).
Proof. unfold blocks_db. apply fold_left_app. Qed.

Lemma start_height_of (d : DB) h :
  get_db_height d = h -> -1 <= h < i64_max -> start_height d = h + 1.
Proof. unfold start_height. intros -> ?. apply i64_add_small. unfold in_i64, i64_min, i64_max in *. lia. Qed.

Section RecoveryTheorem.
Context (client : Client) (bs : list FullBlock).
Context (Hserve : ServesChain client bs) (Hwf : chain_wf bs).
Context (Hv : forallb valid_block bs = true) (Hmax : Z.of_nat (length bs) <= i64_max).
Context (Htx : txs_not_blocks client bs).
Context (n : Z) (Hn : getblockcount client = Ok n).

(** C25: crash recovery.  Kill [fetch_new_blocks] at any point of its
    execution on a served chain, and run the program again: the store
    the restart leaves agrees with the store of the uninterrupted run
    on every key but those of the transactions the crash cut off, all
    of one block.  The restart rescans the watermark (the highest block
    stored, line 25) and resumes above it (line 30), so a crash between
    two blocks costs nothing and a crash inside [parse_block] costs the
    remaining transactions of that block.  The start height of the first
    run must not wrap ([Sync.start_height_bincode]). *)
Theorem crash_recovery w m :
  0 <= start_height (db w) ->
  star (step client) (init w) m ->
  exists lost : list string,
    (lost = [] \/ exists y, y ∈ bs /\ forall t, t ∈ lost -> t ∈ tx y) /\
  forall k, (forall t, t ∈ lost -> k <> tx_key t) ->
    db (snd (fetch_new_blocks client (length bs) (mworld m))) !! k =
    db (snd (fetch_new_blocks client (length bs) w)) !! k.
Proof.
  intros Hs Hm. set (d0 := db w) in *.
  pose proof (crash_inv_store client bs d0 m
                (crash_inv_star client bs Hserve Hwf d0 w m eq_refl Hm)) as Hc.
  assert (Hlen : length (rem bs d0) = (length bs - Z.to_nat (start_height d0))%nat)
    by apply length_drop.
  pose proof (Z2Nat.id _ Hs).
  assert (start_height d0 <= i64_max)
    by (pose proof (wrap_i64_range (get_db_height d0 + 1)); unfold in_i64 in *; apply H0).
  rewrite (restart_db client bs Hserve Hwf n Hn w Hs). fold d0.
  change (drop (Z.to_nat (start_height d0)) bs) with (rem bs d0).
  destruct Hc as [(j & Hj & Hd)|(j & y & pre & rest & Hy & Ht & Hd)].
  - exists []. split; [by left|]. intros k _.
    assert (Hsj : start_height (db (mworld m)) = start_height d0 + Z.of_nat j).
    { rewrite (start_height_of _ (start_height d0 + Z.of_nat j - 1)); [lia| |].
      - rewrite Hd. by apply (stored_watermark client bs Hwf Hv Htx d0 Hs j).
      - lia. }
    rewrite (restart_db client bs Hserve Hwf n Hn (mworld m)) by lia.
    rewrite Hsj, Hd, <- (take_drop j (rem bs d0)), blocks_db_app.
    replace (drop j (rem bs d0)) with (drop (Z.to_nat (start_height d0 + Z.of_nat j)) bs);
      [done|].
    unfold rem. rewrite drop_drop. f_equal. lia.
  - exists rest. split.
    { right. exists y. split; [by eapply rem_elem_of|]. intros t Htr. rewrite Ht. set_solver. }
    intros k Hk.
    pose proof (rem_in_chain bs d0 j y Hy) as Hyc.
    fold (partial_store client bs d0 j y pre) in Hd.
    assert (Hsj : start_height (db (mworld m)) = start_height d0 + Z.of_nat j + 1).
    { rewrite (start_height_of _ (start_height d0 + Z.of_nat j)); [lia| |].
      - rewrite Hd. eapply partial_watermark; eassumption.
      - lia. }
    rewrite (restart_db client bs Hserve Hwf n Hn (mworld m)) by lia.
    rewrite Hsj, Hd, <- (take_drop j (rem bs d0)), blocks_db_app, (drop_S _ _ _ Hy), blocks_db_cons.
    replace (drop (S j) (rem bs d0)) with (drop (Z.to_nat (start_height d0 + Z.of_nat j + 1)) bs)
      by (unfold rem; rewrite drop_drop; f_equal; lia).
    apply blocks_db_agree. unfold parse_block_db. rewrite Ht, fold_left_app.
    symmetry. apply fold_tx_db_frame. intros t Htr E. by apply (Hk t Htr).
Qed.

End RecoveryTheorem.

(** ** A crash between a block and its transactions *)

(** The state after block [h0] was put, before its transaction [t0]. *)
Definition crash_state : Mach :=
  mkMach (PcTxs 0 (mkFullBlock "h0" 0 ["t0"] (Some "h1")) ["t0"] [])
       (snd (db_put (format_hashes "h0")
               (serialize_block (mkFullBlock "h0" 0 ["t0"] (Some "h1")))
               (snd (call_getblock sample_client "h0"
                  (snd (call_getblockhash sample_client 0
                     (snd (call_getblockcount sample_client sample_world)))))))).

(** The first three steps on the sample chain from an empty store: the
    block count, the hash of height 0, and block [h0] fetched and put. *)
Lemma sample_crash_reachable :
  star (step sample_client) (init sample_world)
    crash_state.
Proof.
  eapply star_step; [eapply step_count_ok; reflexivity|].
  eapply star_step; [eapply step_hash_ok; reflexivity|].
  eapply star_step; [eapply step_block_ok; reflexivity|].
  apply star_refl.
Qed.

(** ** A node that serves a cycle *)

(** A block that names itself as its successor. *)
Definition cycle_block : FullBlock := mkFullBlock "c" 0 [] (Some "c").

Definition cycle_client : Client := {|
  getblockcount := Ok 0;
  getblockhash := fun _ => Ok "c";
  getblock := fun _ => Ok cycle_block;
  getrawtransaction := fun _ _ => Err NotFound
|}.

(** The states of the endless walk over [cycle_block]. *)
Definition in_cycle (m : Mach) : Prop :=
  match pc m with
  | PcLoop _ hs _ => hs = "c"
  | PcTxs _ y rest _ => y = cycle_block /\ rest = []
  | _ => False
  end.

Lemma in_cycle_step m : in_cycle m -> exists m', step cycle_client m m' /\ in_cycle m'.
Proof.
  destruct m as [[| |h hs b|h y rest b| |] w]; simpl; intros Hc; try done.
  - subst. eexists. split; [eapply step_block_ok; reflexivity|]. done.
  - destruct Hc as [-> ->]. eexists. split; [eapply step_next; [done|apply surjective_pairing]|].
    done.
Qed.

Lemma in_cycle_not_acc m : in_cycle m -> ~ Acc (fun y x => step cycle_client x y) m.
Proof.
  intros Hc Ha. induction Ha as [m _ IH].
  destruct (in_cycle_step m Hc) as (m' & Hs & Hc'). exact (IH m' Hs Hc').
Qed.

(** C20: the [loop] of lines 47-84 is bounded only by the node.  Against
    a node whose block names itself as [nextblockhash], some execution
    of [fetch_new_blocks] never ends: the initial state is not
    accessible, whatever the store. *)
Theorem cycle_diverges w : ~ Acc (fun y x => step cycle_client x y) (init w).
Proof.
  intros Ha. set (w1 := snd (call_getblockcount cycle_client w)).
  set (s := i64_add (get_db_height (db w1)) 1).
  assert (H1 : step cycle_client (init w) (mkMach PcResolve w1))
    by (eapply step_count_ok; reflexivity).
  assert (H2 : step cycle_client (mkMach PcResolve w1)
                 (mkMach (PcLoop s "c" []) (snd (call_getblockhash cycle_client s w1))))
    by (eapply step_hash_ok; reflexivity).
  apply (in_cycle_not_acc (mkMach (PcLoop s "c" []) (snd (call_getblockhash cycle_client s w1)))); [done|].
  eapply Acc_inv; [eapply Acc_inv; [exact Ha|exact H1]|exact H2].
Qed.

(** ** Witnesses *)

Lemma machine_terminates_witness :
  Acc (fun y x => step sample_client x y) (init sample_world).
Proof.
  apply (machine_terminates sample_client sample_chain sample_client_serves sample_chain_wf).
Defined.

Lemma crash_store_prefix_witness :
  let m := crash_state in
  let d0 := db sample_world in
  (exists j, (j <= length (rem sample_chain d0))%nat /\
     db (mworld m) = stored sample_client sample_chain d0 j) \/
  (exists j y pre rest, rem sample_chain d0 !! j = Some y /\ tx y = pre ++ rest /\
     db (mworld m) = fold_left (tx_db sample_client) pre
       (<[format_hashes (hash y) := serialize_block y]> (stored sample_client sample_chain d0 j))).
Proof.
  apply (crash_store_prefix sample_client sample_chain sample_client_serves sample_chain_wf
           sample_world _ sample_crash_reachable).
Defined.

Lemma cycle_diverges_witness :
  ~ Acc (fun y x => step cycle_client x y) (init sample_world).
Proof. apply (cycle_diverges sample_world). Defined.

(** No sample transaction record decodes as a block. *)
Lemma sample_txs_not_blocks : txs_not_blocks sample_client sample_chain.
Proof.
  intros y t td Hy Ht Hr. unfold sample_chain in Hy.
  assert (y = mkFullBlock "h0" 0 ["t0"] (Some "h1") \/ y = mkFullBlock "h1" 1 ["t1"] (Some "h2") \/
          y = mkFullBlock "h2" 2 ["t2"] None) as Hy' by set_solver.
  destruct Hy' as [-> | [-> | ->]]; simpl in Ht; apply list_elem_of_singleton in Ht as ->;
    vm_compute in Hr; injection Hr as <-; vm_compute; reflexivity.
Qed.

Lemma crash_recovery_witness :
  (0 <= start_height (db sample_world) /\
   star (step sample_client) (init sample_world) crash_state) /\
  exists lost : list string,
    (lost = [] \/ exists y, y ∈ sample_chain /\ forall t, t ∈ lost -> t ∈ tx y) /\
    forall k, (forall t, t ∈ lost -> k <> tx_key t) ->
      db (snd (fetch_new_blocks sample_client (length sample_chain) (mworld crash_state))) !! k =
      db (snd (fetch_new_blocks sample_client (length sample_chain) sample_world)) !! k.
Proof.
  assert (Hs : 0 <= start_height (db sample_world)) by (vm_compute; congruence).
  split; [split; [exact Hs|apply sample_crash_reachable]|].
  apply (crash_recovery sample_client sample_chain sample_client_serves sample_chain_wf
           ltac:(vm_compute; reflexivity) ltac:(vm_compute; congruence) sample_txs_not_blocks
           2 eq_refl sample_world crash_state Hs sample_crash_reachable).
Defined.
