(* ===== verification/Panic.v ===== *)
(** * Panic: the [.unwrap()] on the store operations

    Every RocksDB call of src/src/main.rs ends in [.unwrap()]: the
    [db.put] of the block (line 97), the two [db.put] of a transaction
    (lines 135 and 144), the [db.get] that reads it back (line 147), and
    the [db.write] of the batch (lines 68 and 86).  A failed call panics,
    and the process aborts with the store as the failed call left it:
    RocksDB applies a [put] or a [write] atomically or not at all.

    [fstep] extends the machine of [Machine.v] with one panic rule per
    call site; [Panicked site w] is the final state of an aborted run.
    The theorems: an execution with store failures ends either in the
    result of the functional model or in a panic whose store a crash
    could leave (so no failure leaves a store a crash could not), and a
    failing final [db.write] loses nothing, since the batch it writes is
    empty. *)

From stdpp Require Import base list gmap strings.
From Stdlib Require Import ZArith Lia.
From S2P Require Import Prelude Types Codec Bincode Store Rpc Scan Parse Sync Machine.

Local Open Scope sync_scope.
Local Open Scope Z_scope.

(** The store calls that end in [.unwrap()]. *)
Inductive StoreSite : Type :=
| SitePutBlock      (* line 97: db.put of the block *)
| SitePutTx1        (* line 135: first db.put of a transaction *)
| SitePutTx2        (* line 144: second db.put of a transaction *)
| SiteGetTx         (* line 147: db.get of the transaction *)
| SiteFlush         (* line 68: db.write of the periodic flush *)
| SiteFinalWrite.   (* line 86: db.write after the loop *)

(** A run either goes on or has panicked at a store call. *)
Inductive FState : Type :=
| Running (m : Mach)
| Panicked (site : StoreSite) (w : World).

Definition fstore (f : FState) : DB :=
  match f with Running m => db (mworld m) | Panicked _ w => db w end.

Section Faulty.
Context `{Codec} (client : Client).

(** The machine's steps, and a panic at each store call the step would
    make: the world is the one just before the failed call. *)
Inductive fstep : FState -> FState -> Prop :=
| fstep_run m m' : step client m m' -> fstep (Running m) (Running m')
| fstep_put_block h hs b w w1 block :
    call_getblock client hs w = (Ok block, w1) ->
    fstep (Running (mkMach (PcLoop h hs b) w)) (Panicked SitePutBlock w1)
| fstep_put_tx1 h y t rest b w w1 tx_data :
    call_getrawtransaction client t true w = (Ok tx_data, w1) ->
    fstep (Running (mkMach (PcTxs h y (t :: rest) b) w)) (Panicked SitePutTx1 w1)
| fstep_put_tx2 h y t rest b w w1 tx_data :
    call_getrawtransaction client t true w = (Ok tx_data, w1) ->
    fstep (Running (mkMach (PcTxs h y (t :: rest) b) w))
      (Panicked SitePutTx2
         (snd (db_put (tx_key t) (serialize_tx (assemble_tx t tx_data)) w1)))
| fstep_get_tx h y t rest b w w1 tx_data :
    call_getrawtransaction client t true w = (Ok tx_data, w1) ->
    let put := db_put (tx_key t) (serialize_tx (assemble_tx t tx_data)) in
    fstep (Running (mkMach (PcTxs h y (t :: rest) b) w))
      (Panicked SiteGetTx (snd (put (snd (put w1)))))
| fstep_flush h y b w nh :
    nextblockhash y = Some nh -> (Z.rem h 100 =? 0) = true ->
    fstep (Running (mkMach (PcTxs h y [] b) w)) (Panicked SiteFlush w)
| fstep_final e b w :
    fstep (Running (mkMach (PcFinal e b) w)) (Panicked SiteFinalWrite w).

End Faulty.

#[export] Hint Constructors fstep : sync.

Section FaultyLemmas.
Context `{Codec} (client : Client).

Lemma panicked_irred s w : irred (fstep client) (Panicked s w).
Proof. intros f Hf. inversion Hf. Qed.

Lemma star_run m m' : star (step client) m m' -> star (fstep client) (Running m) (Running m').
Proof. induction 1; eauto using star, fstep. Qed.

(** An execution with failures is an execution of the machine, possibly
    followed by one panic. *)
Lemma fstar_inv a f :
  star (fstep client) (Running a) f ->
  match f with
  | Running m => star (step client) a m
  | Panicked s w => exists m, star (step client) a m /\ fstep client (Running m) (Panicked s w)
  end.
Proof.
  intros Hs. remember (Running a) as f0 eqn:E. revert a E.
  induction Hs as [f0|f0 f1 f2 Hf Hs IH]; intros a ->; [constructor|].
  inversion Hf as [? m' Hst| | | | | |]; subst;
    [|inversion Hs as [|? ? ? Hx]; subst; [eauto using star|by inversion Hx]..].
  specialize (IH m' eq_refl). destruct f2 as [m2|s2 w2].
  - eauto using star.
  - destruct IH as (m & Hm & Hp). eauto using star.
Qed.

(** The store a panic leaves is the one before the step that failed, or
    the one after it: the second put of a transaction writes what the
    first one wrote. *)
Lemma fstep_panic_store m s w :
  fstep client (Running m) (Panicked s w) ->
  db w = db (mworld m) \/ exists m', step client m m' /\ db w = db (mworld m').
Proof.
  inversion 1; subst; simpl.
  - unfold call_getblock in *. rewrite call_db_run in *. simplify_eq. by left.
  - unfold call_getrawtransaction in *. rewrite call_db_run in *. simplify_eq. by left.
  - right. eexists. split; [apply step_tx|].
    unfold call_getrawtransaction in *. rewrite call_db_run in *. simplify_eq.
    rewrite parse_transaction_run. simpl. unfold tx_db. by rewrite H1.
  - right. eexists. split; [apply step_tx|].
    unfold call_getrawtransaction in *. rewrite call_db_run in *. simplify_eq.
    rewrite parse_transaction_run. simpl. unfold tx_db. rewrite H1.
    by rewrite insert_insert_eq.
  - by left.
  - by left.
Qed.

End FaultyLemmas.

Section FaultyServed.
Context `{Codec} (client : Client) (bs : list FullBlock).
Context (Hserve : ServesChain client bs) (Hwf : chain_wf bs).

Lemma step_reach_store w m :
  star (step client) (init w) m -> crash_store client bs (db w) (db (mworld m)).
Proof.
  intros Hm. apply (crash_inv_store client bs (db w) m).
  by apply (crash_inv_star client bs Hserve Hwf (db w) w m).
Qed.

(** C21: store failures.  An execution of [fetch_new_blocks] on a
    served chain in which any store call may fail ends in one of two
    ways: in the result of the functional model, or in a panic at one
    of the six [.unwrap()] sites, with a store that a crash could leave
    as well (a prefix of the chain's blocks, then possibly one more
    block and a prefix of its transactions). *)
Theorem faulty_outcomes w f :
  star (fstep client) (Running (init w)) f -> irred (fstep client) f ->
  let r := fetch_new_blocks client (length bs) w in
  f = Running (mkMach (PcDone (fst r)) (snd r)) \/
  exists s w', f = Panicked s w' /\ crash_store client bs (db w) (db w').
Proof.
  intros Hf Hi r. pose proof (fstar_inv client _ _ Hf) as Hinv.
  destruct f as [m|s w'].
  - left. f_equal.
    eapply (star_irred_unique _ (step_deterministic client)); [exact Hinv| |apply served_star; done|apply done_irred].
    intros m' Hm'. exact (Hi (Running m') (fstep_run _ _ _ Hm')).
  - right. exists s, w'. split; [done|].
    destruct Hinv as (m & Hm & Hp).
    destruct (fstep_panic_store client _ _ _ Hp) as [->|(m' & Hm' & ->)].
    + by apply step_reach_store.
    + apply step_reach_store. eauto using star_trans, star_one.
Qed.

(** C22: a failing final [db.write] (line 86) loses nothing.  The batch
    it writes is always empty, so a run that panics there leaves the
    store the complete run leaves. *)
Theorem final_write_panic_harmless w w' :
  star (fstep client) (Running (init w)) (Panicked SiteFinalWrite w') ->
  db w' = db (snd (fetch_new_blocks client (length bs) w)).
Proof.
  intros Hf. destruct (fstar_inv client _ _ Hf) as (m & Hm & Hp).
  inversion Hp as [| | | | | |e b w0]; subst.
  pose proof (crash_inv_star client bs Hserve Hwf (db w) w _ eq_refl Hm) as [-> _].
  assert (Hd : star (step client) (init w) (mkMach (PcDone (Walked e)) (snd (db_write [] w'))))
    by eauto using star_trans, star_one, step.
  pose proof (star_irred_unique _ (step_deterministic client) _ _ _ Hd (done_irred _ _ _)
                (served_star client bs Hserve Hwf w) (done_irred _ _ _)) as Heq.
  injection Heq as _ <-. done.
Qed.

End FaultyServed.

(** ** Witnesses *)

Definition sample_w1 : World := snd (call_getblockcount sample_client sample_world).
Definition sample_s : Z := i64_add (get_db_height (db sample_w1)) 1.
Definition sample_w2 : World := snd (call_getblockhash sample_client sample_s sample_w1).

(** The world of the sample run when the loop has reached the tip. *)
Definition sample_final : World := snd (fetch_loop sample_client 3 sample_s "h0" [] sample_w2).

Lemma sample_reach_loop :
  star (fstep sample_client) (Running (init sample_world))
    (Running (mkMach (PcLoop sample_s "h0" []) sample_w2)).
Proof.
  eapply star_step; [apply fstep_run; eapply step_count_ok; reflexivity|].
  eapply star_step; [apply fstep_run; eapply step_hash_ok; reflexivity|].
  apply star_refl.
Qed.

Lemma faulty_outcomes_witness :
  let f := Panicked SitePutBlock (snd (call_getblock sample_client "h0" sample_w2)) in
  (star (fstep sample_client) (Running (init sample_world)) f /\ irred (fstep sample_client) f) /\
  let r := fetch_new_blocks sample_client (length sample_chain) sample_world in
  (f = Running (mkMach (PcDone (fst r)) (snd r)) \/
   exists s w', f = Panicked s w' /\
     crash_store sample_client sample_chain (db sample_world) (db w')).
Proof.
  intros f.
  assert (Hf : star (fstep sample_client) (Running (init sample_world)) f).
  { eapply star_trans; [apply sample_reach_loop|].
    apply star_one. eapply fstep_put_block. reflexivity. }
  assert (Hi : irred (fstep sample_client) f) by apply panicked_irred.
  split; [split; assumption|].
  exact (faulty_outcomes sample_client sample_chain sample_client_serves sample_chain_wf
           sample_world f Hf Hi).
Defined.

Lemma final_write_panic_harmless_witness :
  star (fstep sample_client) (Running (init sample_world)) (Panicked SiteFinalWrite sample_final) /\
  db sample_final = db (snd (fetch_new_blocks sample_client (length sample_chain) sample_world)).
Proof.
  assert (Hf : star (fstep sample_client) (Running (init sample_world))
                 (Panicked SiteFinalWrite sample_final)).
  { eapply star_trans; [apply sample_reach_loop|].
    eapply star_trans; [apply star_run, (fetch_loop_star sample_client 3); vm_compute; congruence|].
    apply star_one, fstep_final. }
  split; [exact Hf|].
  exact (final_write_panic_harmless sample_client sample_chain sample_client_serves sample_chain_wf
           sample_world sample_final Hf).
Defined.
