(* ===== verification/Runs.v ===== *)
(** * Runs: [main] and successive executions of the program

    [main] (lines 196-213) opens the store at ["DB_DIR"], builds the RPC
    client from constants and calls [fetch_new_blocks] once.  The store
    is the persistent part of the [World]; the client is obtained from
    the configuration by [connect], the model of
    [BitcoinRpcClient::new] (an external crate).  [run_all] is a sequence
    of executions of the program, one per restart of the process, each
    against the node as it is at that time.

    The theorems show that every run keeps the store well typed (every
    value is the serialization of a block under its block key or of a
    transaction record under its transaction key) and that, against
    nodes serving well-formed chains, the watermark never decreases from
    one run to the next (spec §8, monotonic watermark), and that no run
    fetches again a transaction whose blocks lie at or below the
    watermark: a transaction skipped once after a failed
    [getrawtransaction] stays missing. *)

From S2P Require Import Prelude Types Codec Bincode Store Rpc Scan Parse Sync.

(** The arguments of [BitcoinRpcClient::new] (lines 200-211); the last
    three are passed through to the external crate. *)
Record RpcConfig := mkRpcConfig {
  rpchost : string;
  rpcuser : option string;
  rpcpass : option string;
  rpc_arg4 : Z;
  rpc_arg5 : Z;
  rpc_arg6 : Z
}.

Definition main_config : RpcConfig :=
  mkRpcConfig "RPC_HOST" (Some "RPC_USER") (Some "RPC_PASS") 3 10 1000.

Section Main.
Context `{Codec}.

(** [main]: [fetch_new_blocks(&db, &client)] with the client built from
    [main_config]. *)
Definition main (connect : RpcConfig -> Client) (fuel : nat) : M SyncResult :=
  fetch_new_blocks (connect main_config) fuel.

(** One execution of the program per element of [connects], in order,
    each starting from the store the previous one left. *)
Fixpoint run_all (connects : list (RpcConfig -> Client)) (fuel : nat) (w : World)
    : list World :=
  match connects with
  | [] => []
  | connect :: rest =>
      let w' := snd (main connect fuel w) in w' :: run_all rest fuel w'
  end.

(** Every value of the store is a block under its block key or a
    transaction record under its transaction key. *)
Definition store_typed (d : DB) : Prop :=
  forall k v, d !! k = Some v ->
    (exists b, k = format_hashes (hash b) /\ v = serialize_block b) \/
    (exists t info, k = tx_key t /\ txid info = t /\ v = serialize_tx info).

Lemma blocks_db_typed client l d :
  store_typed d -> store_typed (blocks_db client l d).
Proof.
  intros Hd k v Hk.
  destruct (blocks_db_cases client l d k v Hk)
    as [Hk'|[(y & _ & -> & ->)|(y & t & td & _ & _ & -> & _ & ->)]].
  - by apply Hd.
  - left. eauto.
  - right. exists t, (assemble_tx t td). done.
Qed.
(** C16: every run keeps the store well typed, whatever the node
    answers: a value is the serialization of a block under that block's
    key, or of a transaction record under the key of its [txid]. *)
Theorem fetch_new_blocks_store_typed client fuel w :
  store_typed (db w) -> store_typed (db (snd (fetch_new_blocks client fuel w))).
Proof.
  intros Hd. destruct (fetch_new_blocks_run client fuel w) as (evs & _ & _ & Hm).
  destruct (getblockcount client); [|by destruct Hm as (_ & -> & _)].
  destruct (getblockhash client _); [|by destruct Hm as (_ & -> & _)].
  destruct Hm as (_ & -> & _). by apply blocks_db_typed.
Qed.
End Main.

(** A node that serves a well-formed chain of valid blocks, answers
    [getblockcount], and whose chain fits in [fuel] iterations. *)
Definition node_ok (fuel : nat) (c : Client) : Prop :=
  exists bs n, ServesChain c bs /\ chain_wf bs /\ forallb valid_block bs = true /\
    getblockcount c = Ok n /\ (length bs <= fuel)%nat.

(** With bincode, a run against such a node never lowers the watermark:
    either nothing changes, or the tip block is stored. *)
Lemma watermark_monotone_run client fuel w :
  node_ok fuel client ->
  get_db_height (db w) <= get_db_height (db (snd (fetch_new_blocks client fuel w))).
Proof.
  intros (bs & n & Hs & Hwf & Hv & Hn & Hf).
  pose proof (get_db_height_ge (db w)). pose proof (get_db_height_bincode_le (db w)).
  destruct (fetch_new_blocks_served client bs Hs Hwf fuel w n Hn Hf) as (evs & _ & _ & Hm).
  case_decide as Hin; [|destruct Hm as (_ & -> & _); lia].
  destruct Hm as (_ & -> & _). unfold in_chain, start_height in Hin.
  assert (i64_add (get_db_height (db w)) 1 = get_db_height (db w) + 1) as Es.
  { destruct (decide (get_db_height (db w) = i64_max)) as [E|E].
    - rewrite E, i64_add_max in Hin. unfold i64_min in Hin. lia.
    - apply i64_add_small. unfold in_i64, i64_min, i64_max in *. lia. }
  unfold start_height. rewrite Es in Hin |- *.
  destruct (lookup_lt_is_Some_2 bs (length bs - 1)) as [y Hy]; [lia|].
  assert (y ∈ bs) as Hyin by (by eapply list_elem_of_lookup_2).
  set (d' := blocks_db client (drop (Z.to_nat (get_db_height (db w) + 1)) bs) (db w)).
  assert (d' !! format_hashes (hash y) = Some (serialize_block y)) as Hk.
  { apply blocks_db_block; [apply nodup_drop, Hwf|].
    apply (block_in_drop bs _ (length bs - 1)); [done|lia]. }
  assert (deserialize_block (serialize_block y) = Ok y) as Hb.
  { apply deserialize_serialize_block. rewrite forallb_forall in Hv.
    by apply Hv, list_elem_of_In. }
  pose proof (get_db_height_upper d' _ _ _ Hk Hb) as Hup.
  rewrite (proj1 (proj2 Hwf _ _ Hy)) in Hup. lia.
Qed.

(** C17: across restarts of the program, against nodes that each serve a
    well-formed chain (which may grow, or change, between runs), the
    watermark after each run is at least the one before it (spec §8,
    monotonic watermark). *)
Theorem run_all_watermark_monotone connects fuel w :
  Forall (fun connect => node_ok fuel (connect main_config)) connects ->
  let hs := (fun w => get_db_height (db w)) <$> (w :: run_all connects fuel w) in
  forall i x y, hs !! i = Some x -> hs !! S i = Some y -> x <= y.
Proof.
  revert w. induction connects as [|c cs IH]; intros w Hall hs i x y Hx Hy.
  - simpl in Hy. discriminate.
  - apply Forall_cons in Hall as [Hc Hcs]. destruct i as [|i].
    + simpl in Hx, Hy. injection Hx as <-. injection Hy as <-.
      by apply watermark_monotone_run.
    + exact (IH _ Hcs i x y Hx Hy).
Qed.

(** ** Witnesses *)

Lemma fetch_new_blocks_store_typed_witness :
  store_typed (db sample_world) /\
  store_typed (db (snd (fetch_new_blocks sample_client 3 sample_world))).
Proof.
  assert (H0 : store_typed (db sample_world))
    by (intros k v Hk; vm_compute in Hk; discriminate).
  split; [exact H0|]. by apply fetch_new_blocks_store_typed.
Defined.

Definition growing_nodes : list (RpcConfig -> Client) :=
  [fun _ => chain_client early_chain sample_txs; fun _ => sample_client].

Lemma growing_nodes_ok : Forall (fun connect => node_ok 3 (connect main_config)) growing_nodes.
Proof.
  assert (Hw : chain_wf early_chain) by (apply chain_wf_b_sound; vm_compute; reflexivity).
  repeat constructor.
  - exists early_chain, 0. split_and!; [by apply chain_client_serves|done|
      vm_compute; reflexivity|reflexivity|simpl; lia].
  - exists sample_chain, 2. split_and!; [apply sample_client_serves|apply sample_chain_wf|
      vm_compute; reflexivity|reflexivity|simpl; lia].
Qed.

Lemma run_all_watermark_monotone_witness :
  (fun w => get_db_height (db w)) <$> (sample_world :: run_all growing_nodes 3 sample_world)
    = [-1; 0; 2] /\
  ((fun w => get_db_height (db w)) <$> (sample_world :: run_all growing_nodes 3 sample_world)) !! 1%nat
    = Some 0 /\ 0 <= 2.
Proof.
  split; [vm_compute; reflexivity|]. split; [vm_compute; reflexivity|].
  apply (run_all_watermark_monotone growing_nodes 3 sample_world growing_nodes_ok 1%nat);
    vm_compute; reflexivity.
Defined.

(** ** No retry *)

Lemma blocks_db_frame_tx client l d t :
  (forall y, y ∈ l -> t ∉ tx y) -> blocks_db client l d !! tx_key t = d !! tx_key t.
Proof.
  revert d. induction l as [|y l IH]; intros d Hl; [done|].
  rewrite blocks_db_cons, IH by set_solver.
  apply parse_block_db_frame.
  - intros E. symmetry in E. by apply format_hashes_ne_tx_key in E.
  - intros t' Ht' E. apply tx_key_inj in E. subst. by apply (Hl y); [left|].
Qed.

(** One run fetches no transaction whose blocks all lie at or below the
    watermark. *)
Lemma no_retry_run client bs fuel w t :
  ServesChain client bs -> chain_wf bs -> (length bs <= fuel)%nat ->
  (forall i y, bs !! i = Some y -> t ∈ tx y -> Z.of_nat i <= get_db_height (db w)) ->
  db (snd (fetch_new_blocks client fuel w)) !! tx_key t = db w !! tx_key t.
Proof.
  intros Hs Hw Hf Ht.
  destruct (getblockcount client) as [n|e] eqn:E.
  - destruct (fetch_new_blocks_served client bs Hs Hw fuel w n E Hf) as (evs & _ & _ & Hr).
    case_decide as Hc; destruct Hr as (_ & -> & _); [|done].
    apply blocks_db_frame_tx. intros y Hy Hty.
    apply list_elem_of_lookup in Hy as [j Hj]. rewrite lookup_drop in Hj.
    specialize (Ht _ _ Hj Hty). unfold in_chain in Hc.
    assert (Hs0 := start_height_nonneg (db w) ltac:(lia)).
    rewrite Hs0 in Ht. lia.
  - destruct (fetch_new_blocks_run client fuel w) as (evs & _ & _ & Hr).
    rewrite E in Hr. by destruct Hr as (_ & -> & _).
Qed.

(** C23: no retry.  Across successive runs of [main] against nodes that
    serve the same well-formed chain, a transaction all of whose blocks
    lie at or below the watermark is never fetched again: its record
    stays what it was, missing if an earlier run skipped it after a
    failed [getrawtransaction] (line 155) or lost it to a crash. *)
Theorem run_all_no_retry bs connects fuel w t :
  chain_wf bs -> forallb valid_block bs = true -> (length bs <= fuel)%nat ->
  Forall (fun connect => ServesChain (connect main_config) bs /\
                         exists n, getblockcount (connect main_config) = Ok n) connects ->
  (forall i y, bs !! i = Some y -> t ∈ tx y -> Z.of_nat i <= get_db_height (db w)) ->
  Forall (fun w' => db w' !! tx_key t = db w !! tx_key t) (run_all connects fuel w).
Proof.
  intros Hw Hv Hf Hc. revert w.
  induction Hc as [|connect rest [Hs [n Hn]] _ IH]; intros w Ht; simpl; constructor.
  - by apply (no_retry_run _ bs).
  - unfold main in *.
    assert (Hm := watermark_monotone_run (connect main_config) fuel w
                    ltac:(exists bs, n; done)).
    eapply Forall_impl; [apply IH|].
    + intros i y Hi Hty. specialize (Ht i y Hi Hty). lia.
    + intros w' ->. by apply (no_retry_run _ bs).
Qed.

(** A node that serves the sample chain but fails [getrawtransaction]
    for [t0], as a node does when a request times out. *)
Definition flaky_client : Client := {|
  getblockcount := getblockcount sample_client;
  getblockhash := getblockhash sample_client;
  getblock := getblock sample_client;
  getrawtransaction := fun id verbose =>
    if String.eqb id "t0" then Err Connectivity else getrawtransaction sample_client id verbose
|}.

Lemma run_all_no_retry_witness :
  Forall (fun w' => db w' !! tx_key "t0" = db (snd (main (fun _ => flaky_client) 3 sample_world)) !! tx_key "t0")
    (run_all [fun _ => sample_client] 3 (snd (main (fun _ => flaky_client) 3 sample_world))).
Proof.
  apply (run_all_no_retry sample_chain); [apply sample_chain_wf|vm_compute; reflexivity|simpl; lia| |].
  - constructor; [|constructor]. split; [apply sample_client_serves|]. by eexists.
  - intros i y Hi Ht.
    destruct i as [|[|[|i]]]; vm_compute in Hi; simplify_eq; vm_compute in Ht;
      [vm_compute; congruence|set_solver|set_solver].
Defined.
